(** * StaticResolver (wizdm): a shallow embedding of
      [apps/wizdm/src/app/pages/static/static-resolver.service.ts]

    The service resolves a route into static content: it assembles the
    document path from the [path], [path1], ... route parameters, keeps a
    one-slot cache tagged with the language, loads the main markdown file,
    reads [key: value] options out of its HTML comments and, when a [toc]
    option is found, loads the table of contents as well.  A failed load
    redirects to [/not-found] and yields an empty body.

    The embedding follows the TypeScript text: JavaScript strings are
    sequences of UTF-16 code units, property bags are finite maps, the
    regular-expression literals are values of a small syntax run by a
    backtracking matcher, [RegExp.prototype.exec] threads [lastIndex]
    explicitly, and the [while] loop of [parse] runs on fuel. *)

From Stdlib Require Import NArith String Ascii.
From stdpp Require Import gmap list fin_maps.

(* ===================================================================== *)
(** ** JavaScript values                                                  *)
(* ===================================================================== *)

(** A JavaScript string: its UTF-16 code units. *)
Abbreviation jsstring := (list N).

(** The code units of an ASCII literal of the source. *)
Definition js (s : string) : jsstring :=
  (fun a => N_of_ascii a) <$> list_ascii_of_string s.

(** The values that flow through the service: strings, and the two empty
    values ([params.get] answers [null] for an absent parameter, a capture
    group that took no part in a match reads [undefined]). *)
Inductive jsval :=
| Undefined
| Null
| Str (s : jsstring).

#[global] Instance jsval_eq_dec : EqDecision jsval.
Proof. solve_decision. Defined.

(** [!!v]: the empty string, [null] and [undefined] are falsy. *)
Definition truthy (v : jsval) : bool :=
  match v with
  | Str (_ :: _) => true
  | _ => false
  end.

(** [ToString], as applied by [exec] to its argument and by property
    access to a key. *)
Definition ToString (v : jsval) : jsstring :=
  match v with
  | Undefined => js "undefined"
  | Null => js "null"
  | Str s => s
  end.

(** [Array.prototype.join]: [null] and [undefined] elements contribute the
    empty string, the separator goes between consecutive elements. *)
Definition join_item (v : jsval) : jsstring :=
  match v with
  | Str s => s
  | _ => []
  end.

Fixpoint join (sep : jsstring) (items : list jsval) : jsstring :=
  match items with
  | [] => []
  | [v] => join_item v
  | v :: rest => join_item v ++ sep ++ join sep rest
  end.

(** A plain object whose properties hold values: [{}], [{ body, path }]. *)
Abbreviation jsobject := (gmap jsstring jsval).

(** [o[k] = v] on an object created by a literal.  Its prototype is
    [Object.prototype], whose [__proto__] accessor takes the assignment for
    that one key and ignores a value that is neither an object nor [null]
    (ECMA-262, B.2.2.1.2): no own property appears.  Every other key becomes
    or overwrites an own property. *)
Definition obj_set (o : jsobject) (k : jsstring) (v : jsval) : jsobject :=
  if decide (k = js "__proto__") then o else <[k := v]> o.

(** [o.k]: the own property, or [undefined] (no key of [Object.prototype]
    read by the service is a data property). *)
Definition obj_get (o : jsobject) (k : jsstring) : jsval :=
  default Undefined (o !! k).

(* ===================================================================== *)
(** ** Regular expressions                                                *)
(* ===================================================================== *)

Module Rx.

(** The members of a character class. *)
Inductive atom :=
| ALit (c : N)      (* a literal code unit *)
| ADigit            (* \d *)
| AWord             (* \w *)
| ASpace            (* \s *)
| ANotSpace.        (* \S *)

Definition between (lo hi c : N) : bool := (lo <=? c)%N && (c <=? hi)%N.

Definition is_digit (c : N) : bool := between 48 57 c.

Definition is_word (c : N) : bool :=
  between 97 122 c || between 65 90 c || is_digit c || (c =? 95)%N.

(** WhiteSpace and LineTerminator of ECMA-262: TAB, LF, VT, FF, CR, SP,
    NBSP, U+1680, U+2000..U+200A, U+2028, U+2029, U+202F, U+205F, U+3000 and
    U+FEFF. *)
Definition is_space (c : N) : bool :=
  between 9 13 c || (c =? 32)%N || (c =? 160)%N || (c =? 5760)%N
  || between 8192 8202 c || (c =? 8232)%N || (c =? 8233)%N
  || (c =? 8239)%N || (c =? 8287)%N || (c =? 12288)%N || (c =? 65279)%N.

Definition in_atom (a : atom) (c : N) : bool :=
  match a with
  | ALit d => (c =? d)%N
  | ADigit => is_digit c
  | AWord => is_word c
  | ASpace => is_space c
  | ANotSpace => negb (is_space c)
  end.

(** A class is the union of its members. *)
Definition in_class (cs : list atom) (c : N) : bool :=
  existsb (fun a => in_atom a c) cs.

(** The syntax the literals of the service need.  Every quantifier
    of the source applies to a single character class, so [RStar] and
    [RPlus] carry a class; [greedy = false] is the lazy [*?]. *)
Inductive regex :=
| RChar (c : N)
| RClass (cs : list atom)
| RSeq (r1 r2 : regex)
| RStar (greedy : bool) (cs : list atom)
| RPlus (greedy : bool) (cs : list atom)
| RGroup (n : nat) (r : regex)
| RBol                             (* ^ without the m flag *)
| REol                             (* $ without the m flag *)
| REmpty.

(** A run of literal characters. *)
Fixpoint lit_units (l : jsstring) : regex :=
  match l with
  | [] => REmpty
  | [c] => RChar c
  | c :: l' => RSeq (RChar c) (lit_units l')
  end.

Definition lit (s : string) : regex := lit_units (js s).

(** Captures: group number to the half-open range it matched. *)
Abbreviation captures := (list (nat * (nat * nat))).

(** A continuation receives the position reached, the input left from
    there and the captures so far; it answers the end of the whole match. *)
Abbreviation cont := (nat -> jsstring -> captures -> option (nat * captures)).

(** [cs*] and [cs*?] followed by [k], with backtracking: the greedy
    quantifier tries one more character first, the lazy one tries the
    continuation first. *)
Fixpoint star (greedy : bool) (cs : list atom) (k : cont)
    (i : nat) (rest : jsstring) (caps : captures) {struct rest}
    : option (nat * captures) :=
  match rest with
  | c :: rest' =>
      if in_class cs c then
        if greedy then
          match star greedy cs k (S i) rest' caps with
          | Some m => Some m
          | None => k i rest caps
          end
        else
          match k i rest caps with
          | Some m => Some m
          | None => star greedy cs k (S i) rest' caps
          end
      else k i rest caps
  | [] => k i rest caps
  end.

(** One character of the class, then [k]. *)
Definition one (cs : list atom) (k : cont) : cont :=
  fun i rest caps =>
    match rest with
    | c :: rest' => if in_class cs c then k (S i) rest' caps else None
    | [] => None
    end.

(** The matcher of pattern [r] followed by [k]. *)
Fixpoint rmatch (r : regex) (k : cont) : cont :=
  match r with
  | RChar c => one [ALit c] k
  | RClass cs => one cs k
  | RSeq r1 r2 => rmatch r1 (rmatch r2 k)
  | RStar g cs => star g cs k
  | RPlus g cs => one cs (star g cs k)
  | RGroup n r' =>
      fun i rest caps =>
        rmatch r' (fun j rest' caps' => k j rest' ((n, (i, j)) :: caps')) i rest caps
  | RBol => fun i rest caps => if decide (i = 0) then k i rest caps else None
  | REol => fun i rest caps => match rest with [] => k i rest caps | _ => None end
  | REmpty => k
  end.

Definition accept : cont := fun i _ caps => Some (i, caps).

(** The search of [RegExpBuiltinExec]: try the matcher at [i], then at each
    later position up to and including the end of the input.  [rest] is the
    input from [i] on. *)
Fixpoint search (r : regex) (i : nat) (rest : jsstring)
    : option (nat * (nat * captures)) :=
  match rmatch r accept i rest [] with
  | Some m => Some (i, m)
  | None =>
      match rest with
      | [] => None
      | _ :: rest' => search r (S i) rest'
      end
  end.

(** A [RegExp] object: the pattern, the [g] flag and the mutable
    [lastIndex]. *)
Record RegExp := mkRegExp {
  pattern : regex;
  global : bool;
  lastIndex : nat
}.

Definition literal (r : regex) (g : bool) : RegExp := mkRegExp r g 0.

Definition set_lastIndex (rx : RegExp) (n : nat) : RegExp :=
  mkRegExp (pattern rx) (global rx) n.

(** The array [exec] answers: [index], the input, and the matched ranges
    ([end_index] closes element 0). *)
Record ExecArray := mkExecArray {
  index : nat;
  end_index : nat;
  input : jsstring;
  groups : captures
}.

Definition slice (s : jsstring) (from to : nat) : jsstring :=
  take (to - from) (drop from s).

Fixpoint assoc (n : nat) (caps : captures) : option (nat * nat) :=
  match caps with
  | [] => None
  | (m, range) :: caps' => if decide (m = n) then Some range else assoc n caps'
  end.

(** [match[n]]: the whole match for 0, the text of group [n] otherwise,
    [undefined] for a group that took no part. *)
Definition item (m : ExecArray) (n : nat) : jsval :=
  match n with
  | 0 => Str (slice (input m) (index m) (end_index m))
  | _ =>
      match assoc n (groups m) with
      | Some (from, to) => Str (slice (input m) from to)
      | None => Undefined
      end
  end.

(** [rx.exec(s)]: the regular expression after the call and the match or
    [null].  Without the [g] flag the search starts at 0 and [lastIndex] is
    left alone; with it the search starts at [lastIndex], which becomes the
    end of the match, or 0 when there is none. *)
Definition exec (rx : RegExp) (s : jsstring) : RegExp * option ExecArray :=
  let start := if global rx then lastIndex rx else 0 in
  let failed := if global rx then set_lastIndex rx 0 else rx in
  if decide (length s < start) then (failed, None)
  else
    match search (pattern rx) start (drop start s) with
    | None => (failed, None)
    | Some (i, (e, caps)) =>
        (if global rx then set_lastIndex rx e else rx,
         Some (mkExecArray i e s caps))
    end.

(** [s.match(rx)] for a regular expression without the [g] flag. *)
Definition str_match (s : jsstring) (rx : RegExp) : option ExecArray :=
  snd (exec rx s).

(** [s.replace(rx, by)] for a regular expression without the [g] flag and a
    replacement free of [$] patterns: the first match is replaced. *)
Definition str_replace (s : jsstring) (rx : RegExp) (by_ : jsstring) : jsstring :=
  match snd (exec rx s) with
  | None => s
  | Some m => take (index m) s ++ by_ ++ drop (end_index m) s
  end.

(** A continuation is bounded when the end it answers lies between the
    position it was given and the end of the input. *)
Definition bounded (k : cont) : Prop :=
  forall i rest caps e caps',
    k i rest caps = Some (e, caps') -> i <= e <= i + length rest.

(** The pattern contains group [n].  Quantifiers hold classes only, so
    a group of the pattern takes part in every match. *)
Fixpoint has_group (n : nat) (r : regex) : bool :=
  match r with
  | RSeq r1 r2 => has_group n r1 || has_group n r2
  | RGroup m r' => bool_decide (m = n) || has_group n r'
  | _ => false
  end.

(** A continuation relates the captures it is given to those it answers. *)
Definition relates (Q : captures -> captures -> Prop) (k : cont) : Prop :=
  forall i rest caps e caps', k i rest caps = Some (e, caps') -> Q caps caps'.

Definition keeps (n : nat) : cont -> Prop :=
  relates (fun caps caps' => is_Some (assoc n caps) -> is_Some (assoc n caps')).

Definition sets (n : nat) : cont -> Prop :=
  relates (fun _ caps' => is_Some (assoc n caps')).

End Rx.

(** The literals of the service. *)

(** [/^path\d*$/] *)
Definition rx_path_key : Rx.RegExp :=
  Rx.literal
    (Rx.RSeq Rx.RBol
       (Rx.RSeq (Rx.lit "path") (Rx.RSeq (Rx.RStar true [Rx.ADigit]) Rx.REol)))
    false.

(** [/\.\w+$/] *)
Definition rx_extension : Rx.RegExp :=
  Rx.literal
    (Rx.RSeq (Rx.RChar 46) (Rx.RSeq (Rx.RPlus true [Rx.AWord]) Rx.REol))
    false.

(** [/<!--([\s\S]*?)-->/g] *)
Definition rx_comments : Rx.RegExp :=
  Rx.literal
    (Rx.RSeq (Rx.lit "<!--")
       (Rx.RSeq (Rx.RGroup 1 (Rx.RStar false [Rx.ASpace; Rx.ANotSpace]))
          (Rx.lit "-->")))
    true.

(** The [pairs] literal of [parseComments]: optional white space, a
    captured run of word characters, a colon, optional white space, a
    captured and possibly empty run of the class [\w-_.], optional white
    space; [g] flag.  In that class the hyphen between [\w] and [_] is a
    literal hyphen. *)
Definition rx_pairs : Rx.RegExp :=
  Rx.literal
    (Rx.RSeq (Rx.RStar true [Rx.ASpace])
       (Rx.RSeq (Rx.RGroup 1 (Rx.RPlus true [Rx.AWord]))
          (Rx.RSeq (Rx.RChar 58)
             (Rx.RSeq (Rx.RStar true [Rx.ASpace])
                (Rx.RSeq
                   (Rx.RGroup 2
                      (Rx.RStar true
                         [Rx.AWord; Rx.ALit 45; Rx.ALit 95; Rx.ALit 46]))
                   (Rx.RStar true [Rx.ASpace]))))))
    true.

(* ===================================================================== *)
(** ** Completion of a call                                               *)
(* ===================================================================== *)

(** How a call ends: with a value, with a thrown error (by its message), or,
    for the loop that runs on fuel, with the fuel spent. *)
Inductive outcome (A : Type) :=
| Done (a : A)
| Raised (e : jsstring)
| OutOfFuel.

Arguments Done {A} a.
Arguments Raised {A} e.
Arguments OutOfFuel {A}.

Definition bind {A B} (x : outcome A) (f : A -> outcome B) : outcome B :=
  match x with
  | Done a => f a
  | Raised e => Raised e
  | OutOfFuel => OutOfFuel
  end.

Notation "x <- e ;; k" := (bind e (fun x => k))
  (at level 100, e at next level, right associativity).

(* ===================================================================== *)
(** ** The service                                                        *)
(* ===================================================================== *)

(** The third argument of [parse]: the source checks at run time that it is
    a function. *)
Inductive callback (St : Type) :=
| NotAFunction
| Fn (f : Rx.ExecArray -> St -> outcome St).

Arguments NotAFunction {St}.
Arguments Fn {St} f.

(** [if(match.index == rx.lastIndex) { rx.lastIndex++ }]: prevents the
    zero-length match infinite loop. *)
Definition skip_empty (m : Rx.ExecArray) (rx : Rx.RegExp) : Rx.RegExp :=
  if decide (Rx.index m = Rx.lastIndex rx)
  then Rx.set_lastIndex rx (S (Rx.lastIndex rx))
  else rx.

(** The [while] loop of [parse].  [st] is what the callback mutates; the
    callbacks of the service never touch [rx] itself. *)
Fixpoint parse_loop {St : Type} (fuel : nat) (rx : Rx.RegExp) (source : jsstring)
    (f : Rx.ExecArray -> St -> outcome St) (st : St) : outcome (Rx.RegExp * St) :=
  match fuel with
  | 0 => OutOfFuel
  | S fuel' =>
      match Rx.exec rx source with
      | (rx', None) => Done (rx', st)
      | (rx', Some m) =>
          let rx'' := skip_empty m rx' in
          st' <- f m st ;;
          parse_loop fuel' rx'' source f st'
      end
  end.

(** Each iteration that finds a match moves [lastIndex] up, and a match
    starts no later than the end of the input: the length of the input plus
    two bounds the number of calls of [exec]. *)
Definition parse_fuel (source : jsstring) : nat := length source + 2.

(** [parse(rx, source, fn)]; [exec] converts its argument to a string. *)
Definition parse {St : Type} (rx : Rx.RegExp) (source : jsval) (fn : callback St)
    (st : St) : outcome (Rx.RegExp * St) :=
  match fn with
  | NotAFunction => Raised (js "fn must be a function")
  | Fn f =>
      let s := ToString source in
      parse_loop (parse_fuel s) rx s f st
  end.

(** [out[ pair[1] ] = pair[2]] *)
Definition store_pair (pair : Rx.ExecArray) (out : jsobject) : outcome jsobject :=
  Done (obj_set out (ToString (Rx.item pair 1)) (Rx.item pair 2)).

(** The callback on a comment: scan its inner text for pairs.  It works on
    the one [pairs] object of the enclosing call and on [out]. *)
Definition scan_comment (comment : Rx.ExecArray) (st : Rx.RegExp * jsobject)
    : outcome (Rx.RegExp * jsobject) :=
  parse (fst st) (Rx.item comment 1) (Fn store_pair) (snd st).

(** [parseComments(source)] *)
Definition parseComments (source : jsval) : outcome jsobject :=
  let out : jsobject := ∅ in
  if negb (truthy source) then Done out
  else
    let comments := rx_comments in
    let pairs := rx_pairs in
    r <- parse comments source (Fn scan_comment) (pairs, out) ;;
    Done (snd (snd r)).

(** Angular's [ParamMap] interface, as far as the service reads it: the
    [keys] array and [get], which answers a string or [null]. *)
Record ParamMap := mkParamMap {
  keys : list jsstring;
  get : jsstring -> jsval
}.

(** [!!key.match(/^path\d*$/)] *)
Definition is_path_key (key : jsstring) : bool :=
  bool_decide (is_Some (Rx.str_match key rx_path_key)).

(** [resolvePath(params)]: [None] is a falsy [params], which [&&] hands
    back as it is. *)
Definition resolvePath (params : option ParamMap) : option jsstring :=
  match params with
  | None => None
  | Some p =>
      Some (join (js "/") (map (get p) (filter (fun key => is_path_key key = true) (keys p))))
  end.

(** What the service reads of the route. *)
Record ActivatedRouteSnapshot := mkRoute {
  data_source : jsval;        (* route.data.source *)
  paramMap : ParamMap
}.

(** The observable [loadFile] answers, subscribed once: it emits the text
    of the file and completes, or it errors. *)
Inductive loaded :=
| Emits (text : jsstring)
| Fails (e : jsstring).

(** The injected collaborators, [selector.resolve] and [loader.loadFile],
    taken as they answer: a language code, and an observable. *)
Record Collaborators := mkCollaborators {
  selector_resolve : ActivatedRouteSnapshot -> jsstring;
  loadFile : jsstring -> jsstring -> jsstring -> loaded
}.

(** What the service does to the outside, in order; [EReset] marks the
    assignment to [this.cache].  Console output is left out. *)
Inductive event :=
| EReset (lang : jsstring)
| ELoad (root lang file : jsstring)
| ENavigate (commands : list jsstring).

#[global] Instance event_eq_dec : EqDecision event.
Proof. solve_decision. Defined.

(** The state of the service: the [cache] field ([None] until the first
    assignment) and the events so far, oldest first. *)
Record service := mkService {
  cache : option jsobject;
  trace : list event
}.

Definition emit (e : event) (w : service) : service :=
  mkService (cache w) (trace w ++ [e]).

(** [this.cache?.lang] *)
Definition cache_lang (w : service) : jsval :=
  match cache w with
  | None => Undefined
  | Some c => obj_get c (js "lang")
  end.

(** [this.cache = { lang }] *)
Definition reset_cache (lang : jsstring) (w : service) : service :=
  emit (EReset lang) (mkService (Some {[ js "lang" := Str lang ]}) (trace w)).

(** [{ ...target, ...options }]: the spread properties are written last. *)
Definition spread (target options : jsobject) : jsobject := options ∪ target.

(** The handler of [catchError]. *)
Definition not_found (w : service) : outcome (jsobject * service) :=
  let w := emit (ENavigate [js "/not-found"]) w in
  Done ({[ js "body" := Str [] ]}, w).

(** The projection handed to [switchMap], with the [map] on the second
    load.  An exception thrown in it reaches [catchError] as an error of the
    stream. *)
Definition on_body (c : Collaborators) (root lang path body : jsstring)
    (w : service) : outcome (jsobject * service) :=
  match parseComments (Str body) with
  | OutOfFuel => OutOfFuel
  | Raised _ => not_found w
  | Done options =>
      let base : jsobject := <[ js "path" := Str path ]> {[ js "body" := Str body ]} in
      if negb (truthy (obj_get options (js "toc"))) then
        Done (spread base options, w)
      else
        let file := ToString (obj_get options (js "toc")) in
        let w := emit (ELoad root lang file) w in
        match loadFile c root lang file with
        | Fails _ => not_found w
        | Emits toc => Done (<[ js "toc" := Str toc ]> (spread base options), w)
        end
  end.

(** [route.data.source || 'assets/docs'] *)
Definition root_of (route : ActivatedRouteSnapshot) : jsstring :=
  if truthy (data_source route) then ToString (data_source route)
  else js "assets/docs".

(** [path.replace(/\.\w+$/, '') + '.md'] *)
Definition main_file (path : jsstring) : jsstring :=
  Rx.str_replace path rx_extension [] ++ js ".md".

(** [if(lang !== this.cache?.lang) { this.cache = { lang }; }] *)
Definition check_cache (lang : jsstring) (w : service) : service :=
  if decide (Str lang = cache_lang w) then w else reset_cache lang w.

(** [resolve(route)], the observable it answers subscribed once.  The
    route of Angular always carries a [paramMap]; a [null] path would make
    [path.replace] throw. *)
Definition resolve (c : Collaborators) (route : ActivatedRouteSnapshot)
    (w : service) : outcome (jsobject * service) :=
  let root := root_of route in
  let lang := selector_resolve c route in
  match resolvePath (Some (paramMap route)) with
  | None => Raised (js "TypeError")
  | Some path =>
      let w := check_cache lang w in
      let file := main_file path in
      let w := emit (ELoad root lang file) w in
      match loadFile c root lang file with
      | Fails _ => not_found w
      | Emits body => on_body c root lang path body w
      end
  end.

(** The path of a route, as [resolve] computes it. *)
Definition path_of (route : ActivatedRouteSnapshot) : jsstring :=
  default [] (resolvePath (Some (paramMap route))).

(* ===================================================================== *)
(** ** Vocabulary of the statements                                       *)
(* ===================================================================== *)

Definition is_reset (e : event) : bool :=
  match e with EReset _ => true | _ => false end.

Definition is_load (e : event) : bool :=
  match e with ELoad _ _ _ => true | _ => false end.

Definition is_navigate (e : event) : bool :=
  match e with ENavigate _ => true | _ => false end.

(** The events of one kind, in order. *)
Definition only (kind : event -> bool) (evs : list event) : list event :=
  filter (fun e => kind e = true) evs.

(** The calls made to the collaborators: everything but the cache marks. *)
Definition calls (evs : list event) : list event :=
  filter (fun e => is_reset e = false) evs.


(** Every property of the object holds a string. *)
Definition all_strings (o : jsobject) : Prop :=
  forall k v, o !! k = Some v -> exists t, v = Str t.

(** The degraded result [{ body: '' }]. *)
Definition degraded : jsobject := {[ js "body" := Str [] ]}.

(* ===================================================================== *)
(** ** The resolutions, by the answers of the loader *)
(* ===================================================================== *)

(** The events of the cache check. *)
Definition cache_events (lang : jsstring) (w : service) : list event :=
  if decide (Str lang = cache_lang w) then [] else [EReset lang].

(** What [resolve] answers and which calls it makes after the cache check,
    by the answers of the loader: the result and the calls in order. *)
Inductive resolution (c : Collaborators) (route : ActivatedRouteSnapshot)
    : jsobject -> list event -> Prop :=
| main_fails e :
    loadFile c (root_of route) (selector_resolve c route)
      (main_file (path_of route)) = Fails e ->
    resolution c route degraded
      [ELoad (root_of route) (selector_resolve c route) (main_file (path_of route));
       ENavigate [js "/not-found"]]
| no_toc body options :
    loadFile c (root_of route) (selector_resolve c route)
      (main_file (path_of route)) = Emits body ->
    parseComments (Str body) = Done options ->
    truthy (obj_get options (js "toc")) = false ->
    resolution c route
      (spread (<[ js "path" := Str (path_of route) ]> {[ js "body" := Str body ]}) options)
      [ELoad (root_of route) (selector_resolve c route) (main_file (path_of route))]
| toc_fails body options e :
    loadFile c (root_of route) (selector_resolve c route)
      (main_file (path_of route)) = Emits body ->
    parseComments (Str body) = Done options ->
    truthy (obj_get options (js "toc")) = true ->
    loadFile c (root_of route) (selector_resolve c route)
      (ToString (obj_get options (js "toc"))) = Fails e ->
    resolution c route degraded
      [ELoad (root_of route) (selector_resolve c route) (main_file (path_of route));
       ELoad (root_of route) (selector_resolve c route)
         (ToString (obj_get options (js "toc")));
       ENavigate [js "/not-found"]]
| with_toc body options toc :
    loadFile c (root_of route) (selector_resolve c route)
      (main_file (path_of route)) = Emits body ->
    parseComments (Str body) = Done options ->
    truthy (obj_get options (js "toc")) = true ->
    loadFile c (root_of route) (selector_resolve c route)
      (ToString (obj_get options (js "toc"))) = Emits toc ->
    resolution c route
      (<[ js "toc" := Str toc ]>
         (spread (<[ js "path" := Str (path_of route) ]> {[ js "body" := Str body ]})
            options))
      [ELoad (root_of route) (selector_resolve c route) (main_file (path_of route));
       ELoad (root_of route) (selector_resolve c route)
         (ToString (obj_get options (js "toc")))].

(* ===================================================================== *)
(** ** The matches of a scan and the pairs of a text *)
(* ===================================================================== *)

(** The callback that only records the match. *)
Definition collect (m : Rx.ExecArray) (acc : list Rx.ExecArray)
    : outcome (list Rx.ExecArray) :=
  Done (acc ++ [m]).

(** The matches [parse] hands to its callback, in the order of the calls. *)
Definition matches (rx : Rx.RegExp) (source : jsval) : list Rx.ExecArray :=
  match parse rx source (Fn collect) [] with
  | Done r => snd r
  | _ => []
  end.

(** The callback applied to the matches in turn; it stops on a throw. *)
Fixpoint fold_matches {St : Type} (f : Rx.ExecArray -> St -> outcome St)
    (ms : list Rx.ExecArray) (st : St) : outcome St :=
  match ms with
  | [] => Done st
  | m :: ms' => st' <- f m st ;; fold_matches f ms' st'
  end.

(** Matches in the order of the text: each starts at or after [n] and ends
    at or after its start, and the next starts at or after its end. *)
Fixpoint ordered_from (n : nat) (ms : list Rx.ExecArray) : Prop :=
  match ms with
  | [] => True
  | m :: ms' =>
      n <= Rx.index m /\ Rx.index m <= Rx.end_index m
      /\ ordered_from (Rx.end_index m) ms'
  end.

(** The key and the value [store_pair] reads off a match of [pairs]. *)
Definition pair_of (pair : Rx.ExecArray) : jsstring * jsval :=
  (ToString (Rx.item pair 1), Rx.item pair 2).

(** The pairs of one comment, and of the whole text, in the order found. *)
Definition pairs_in (comment : Rx.ExecArray) : list (jsstring * jsval) :=
  pair_of <$> matches rx_pairs (Rx.item comment 1).

Definition all_pairs (source : jsval) : list (jsstring * jsval) :=
  concat (pairs_in <$> matches rx_comments source).

(** Assigning the pairs in turn. *)
Definition assign_all (out : jsobject) (pairs : list (jsstring * jsval)) : jsobject :=
  foldl (fun o kv => obj_set o kv.1 kv.2) out pairs.

(* ===================================================================== *)
(** ** Path keys and parameter maps *)
(* ===================================================================== *)

(** The key pattern in words: the literal [path], then digits only. *)
Definition PathKey (key : jsstring) : Prop :=
  exists digits,
    key = js "path" ++ digits /\ Forall (fun c => Rx.is_digit c = true) digits.

(** What is left of [s] after the prefix [l]. *)
Fixpoint strip_prefix (l s : jsstring) : option jsstring :=
  match l, s with
  | [], _ => Some s
  | c :: l', d :: s' => if decide (d = c) then strip_prefix l' s' else None
  | _ :: _, [] => None
  end.

(** [s.includes(pat)] *)
Fixpoint includes (pat s : jsstring) : bool :=
  match strip_prefix pat s with
  | Some _ => true
  | None =>
      match s with
      | [] => false
      | _ :: s' => includes pat s'
      end
  end.

(** Modelled from the spec: the class behind [ParamMap] belongs to the
    framework; the route parameters are an ordered sequence of key/value
    pairs.  [value_of] is the value paired with a key, or [null]. *)
Fixpoint value_of (key : jsstring) (segs : list (jsstring * jsval)) : jsval :=
  match segs with
  | [] => Null
  | (k, v) :: segs' => if decide (k = key) then v else value_of key segs'
  end.

(** Modelled from the spec: the parameter map of an ordered sequence of
    key/value pairs, [keys] in the order given and [get] by [value_of]. *)
Definition params_of (segs : list (jsstring * jsval)) : ParamMap :=
  mkParamMap segs.*1 (fun key => value_of key segs).

(* ===================================================================== *)
(** ** Sample sites and routes *)
(* ===================================================================== *)

(** A pattern that matches the empty string at every position, and a
    callback that counts the matches. *)
Definition rx_blank : Rx.RegExp := Rx.literal (Rx.RStar true [Rx.ASpace]) true.

Definition count_match (_ : Rx.ExecArray) (n : nat) : outcome nat := Done (S n).

(** A site in English whose one document, [guide.md], carries a [toc]
    option with no value. *)
Definition empty_toc_loader (root lang file : jsstring) : loaded :=
  if decide (file = js "guide.md") then Emits (js "# Guide <!-- toc: -->")
  else Fails (js "404").

Definition guide_params : ParamMap :=
  mkParamMap [js "path"]
    (fun key => if decide (key = js "path") then Str (js "guide") else Null).

Definition guide_route : ActivatedRouteSnapshot := mkRoute Undefined guide_params.

Definition english (loader : jsstring -> jsstring -> jsstring -> loaded)
    : Collaborators :=
  mkCollaborators (fun _ => js "en") loader.

Definition fresh_service : service := mkService None [].

(** The site of the end-to-end example. *)
Definition guide_text : jsstring := js "# Guide
<!-- ref: 1.0 -->".

Definition docs_loader (root lang file : jsstring) : loaded :=
  if decide (root = js "docs" /\ lang = js "en" /\ file = js "guide.md")
  then Emits guide_text else Fails (js "404").

(** A document that names a table of contents the site does not have. *)
Definition missing_toc_loader (root lang file : jsstring) : loaded :=
  if decide (file = js "guide.md") then Emits (js "<!-- toc: nav.md -->")
  else Fails (js "404").

(** A document with a [body] option. *)
Definition body_option_loader (root lang file : jsstring) : loaded :=
  if decide (file = js "guide.md") then Emits (js "text <!-- body: none -->")
  else Fails (js "404").

(** A route whose [path] parameter has no value. *)
Definition missing_value_params : ParamMap :=
  params_of [(js "path", Null); (js "path1", Str (js "b"))].

(* ===================================================================== *)
(** ** File names and option values                                       *)
(* ===================================================================== *)

(** [path] ends in an extension: a dot and then word characters only, at
    least one, up to the end. *)
Definition extension_split (path stem ext : jsstring) : Prop :=
  path = stem ++ 46%N :: ext
  /\ ext <> []
  /\ Forall (fun c => Rx.is_word c = true) ext.

(** The characters of a value: word characters, hyphen and dot. *)
Definition is_value_char (c : N) : bool :=
  Rx.is_word c || (c =? 45)%N || (c =? 46)%N.

(** What the pairs pattern can capture: a key that is a word, a value that
    is a string of value characters, possibly empty. *)
Definition option_shape (key : jsstring) (value : jsval) : Prop :=
  key <> []
  /\ Forall (fun c => Rx.is_word c = true) key
  /\ exists t, value = Str t /\ Forall (fun c => is_value_char c = true) t.

(** A match of the comments pattern: the whole match is a comment around
    [inner], group 1 is [inner], and [inner] holds no closing delimiter. *)
Definition comment_around (inner : jsstring) (m : Rx.ExecArray) : Prop :=
  Rx.item m 0 = Str (js "<!--" ++ inner ++ js "-->")
  /\ Rx.item m 1 = Str inner
  /\ includes (js "-->") inner = false.

(* ===================================================================== *)
(** ** Resolutions in a row                                               *)
(* ===================================================================== *)

(** [resolve] called for one route after the other on the same service,
    as the router does on each navigation: the results in order. *)
Fixpoint resolve_all (c : Collaborators) (routes : list ActivatedRouteSnapshot)
    (w : service) : outcome (list jsobject * service) :=
  match routes with
  | [] => Done ([], w)
  | route :: routes' =>
      r <- resolve c route w ;;
      rs <- resolve_all c routes' (snd r) ;;
      Done (fst r :: fst rs, snd rs)
  end.

(** The languages of a row that differ from the one before them, [prev]
    before the first. *)
Fixpoint language_changes (prev : jsval) (langs : list jsstring) : list jsstring :=
  match langs with
  | [] => []
  | lang :: langs' =>
      (if decide (Str lang = prev) then [] else [lang])
      ++ language_changes (Str lang) langs'
  end.

(* ===================================================================== *)
(** ** Facts about the matcher                                            *)
(* ===================================================================== *)

Module RxFacts.
Import Rx.

Lemma accept_bounded : bounded accept.
Proof. intros i rest caps e caps' [= <- _]. lia. Qed.

Lemma one_bounded cs k : bounded k -> bounded (one cs k).
Proof.
  intros Hk i rest caps e caps'. unfold one.
  destruct rest as [|c rest]; [done|].
  destruct (in_class cs c); [|done].
  intros H%Hk. simpl. lia.
Qed.

Lemma star_bounded g cs k : bounded k -> bounded (star g cs k).
Proof.
  intros Hk i rest. revert i.
  induction rest as [|c rest IH]; intros i caps e caps'; simpl.
  - intros H%Hk. simpl in H. lia.
  - destruct (in_class cs c).
    + destruct g.
      * destruct (star true cs k (S i) rest caps) as [[e1 c1]|] eqn:E.
        -- intros [= -> ->]. apply IH in E. lia.
        -- intros H%Hk. simpl in H. lia.
      * destruct (k i (c :: rest) caps) as [[e1 c1]|] eqn:E.
        -- intros [= -> ->]. apply Hk in E. simpl in E. lia.
        -- intros H%IH. lia.
    + intros H%Hk. simpl in H. lia.
Qed.

Lemma rmatch_bounded r : forall k, bounded k -> bounded (rmatch r k).
Proof.
  induction r as [c|cs|r1 IH1 r2 IH2|g cs|g cs|n r IH| | |]; intros k Hk; simpl.
  - by apply one_bounded.
  - by apply one_bounded.
  - by apply IH1, IH2.
  - by apply star_bounded.
  - by apply one_bounded, star_bounded.
  - intros i rest caps e caps' H.
    eapply (IH (fun j rest' caps' => k j rest' ((n, (i, j)) :: caps'))); [|exact H].
    intros j rest' caps1 e1 caps1' H1. by apply Hk in H1.
  - intros i rest caps e caps'. destruct (decide (i = 0)); [|done]. apply Hk.
  - intros i rest caps e caps'. destruct rest; [|done]. apply Hk.
  - done.
Qed.

(** A match found by the search starts at or after the starting position
    and ends inside the input. *)
Lemma search_bounds r i rest j e caps :
  search r i rest = Some (j, (e, caps)) ->
  i <= j <= e /\ e <= i + length rest.
Proof.
  revert i. induction rest as [|c rest IH]; intros i; simpl.
  - destruct (rmatch r accept i [] []) as [[e1 c1]|] eqn:E; [|done].
    intros [= <- <- <-]. apply (rmatch_bounded r _ accept_bounded) in E.
    simpl in E. lia.
  - destruct (rmatch r accept i (c :: rest) []) as [[e1 c1]|] eqn:E.
    + intros [= <- <- <-]. apply (rmatch_bounded r _ accept_bounded) in E.
      simpl in E. lia.
    + intros H%IH. lia.
Qed.

(** [exec] on a regular expression with the [g] flag: a match lies between
    the old [lastIndex] and the end of the input, and the new [lastIndex]
    is its end. *)
Lemma exec_found rx s rx' m :
  global rx = true ->
  exec rx s = (rx', Some m) ->
  lastIndex rx <= index m <= end_index m
  /\ end_index m <= length s
  /\ input m = s
  /\ rx' = set_lastIndex rx (end_index m).
Proof.
  intros Hg. unfold exec. rewrite Hg.
  destruct (decide (length s < lastIndex rx)); [done|].
  destruct (search _ _ _) as [[j [e caps]]|] eqn:E; [|done].
  intros [= <- <-]. simpl. apply search_bounds in E.
  rewrite length_drop in E. repeat split; lia.
Qed.

(** Without a match [exec] puts [lastIndex] back to 0. *)
Lemma exec_not_found rx s rx' :
  global rx = true ->
  exec rx s = (rx', None) ->
  rx' = set_lastIndex rx 0.
Proof.
  intros Hg. unfold exec. rewrite Hg.
  destruct (decide (length s < lastIndex rx)); [by intros [= <-]|].
  destruct (search _ _ _) as [[j [e caps]]|]; [done|]. by intros [= <-].
Qed.

(** Past the end of the input [exec] finds nothing. *)
Lemma exec_past_end rx s :
  global rx = true ->
  length s < lastIndex rx ->
  exec rx s = (set_lastIndex rx 0, None).
Proof.
  intros Hg Hlt. unfold exec. rewrite Hg.
  by destruct (decide (length s < lastIndex rx)).
Qed.


(** ** Capture groups *)

Lemma one_relates Q cs k : relates Q k -> relates Q (one cs k).
Proof.
  intros Hk i rest caps e caps'. unfold one.
  destruct rest as [|c rest]; [done|].
  destruct (in_class cs c); [|done]. apply Hk.
Qed.

Lemma star_relates Q g cs k : relates Q k -> relates Q (star g cs k).
Proof.
  intros Hk i rest. revert i.
  induction rest as [|c rest IH]; intros i caps e caps'; simpl; [apply Hk|].
  destruct (in_class cs c); [|apply Hk].
  destruct g.
  - destruct (star true cs k (S i) rest caps) as [[e1 c1]|] eqn:E.
    + intros [= -> ->]. by apply IH in E.
    + apply Hk.
  - destruct (k i (c :: rest) caps) as [[e1 c1]|] eqn:E.
    + intros [= -> ->]. by apply Hk in E.
    + apply IH.
Qed.

(** The matcher of any pattern passes on a relation that does not mind
    one more capture on the side it is given. *)
Lemma rmatch_relates Q r :
  (forall c caps caps', Q (c :: caps) caps' -> Q caps caps') ->
  forall k, relates Q k -> relates Q (rmatch r k).
Proof.
  intros HQ.
  induction r as [c|cs|r1 IH1 r2 IH2|g cs|g cs|n r IH| | |]; intros k Hk; simpl.
  - by apply one_relates.
  - by apply one_relates.
  - by apply IH1, IH2.
  - by apply star_relates.
  - by apply one_relates, star_relates.
  - intros i rest caps e caps' H.
    eapply (IH (fun j rest' caps' => k j rest' ((n, (i, j)) :: caps'))); [|exact H].
    intros j rest' caps1 e1 caps1' H1. eapply HQ, Hk, H1.
  - intros i rest caps e caps'. destruct (decide (i = 0)); [|done]. apply Hk.
  - intros i rest caps e caps'. destruct rest; [|done]. apply Hk.
  - done.
Qed.

Lemma assoc_cons_is_Some n c caps :
  is_Some (assoc n caps) -> is_Some (assoc n (c :: caps)).
Proof. destruct c as [m range]. simpl. by destruct (decide (m = n)). Qed.

Lemma rmatch_keeps n r k : keeps n k -> keeps n (rmatch r k).
Proof.
  apply rmatch_relates. intros c caps caps' H Hs.
  by apply H, assoc_cons_is_Some.
Qed.

Lemma rmatch_sets n r k : sets n k -> sets n (rmatch r k).
Proof. apply rmatch_relates. auto. Qed.

(** A group of the pattern is set in every match. *)
Lemma has_group_sets n r :
  has_group n r = true -> forall k, keeps n k -> sets n (rmatch r k).
Proof.
  induction r as [c|cs|r1 IH1 r2 IH2|g cs|g cs|m r IH| | |]; simpl; try done.
  - intros [H|H]%orb_true_iff k Hk.
    + by apply IH1, rmatch_keeps.
    + by apply rmatch_sets, IH2.
  - intros H k Hk i rest caps e caps' Hm.
    destruct (decide (m = n)) as [->|Hne].
    + eapply (rmatch_sets n r (fun j rest' caps' => k j rest' ((n, (i, j)) :: caps')));
        [|exact Hm].
      intros j rest' caps1 e1 caps1' H1. eapply Hk; [exact H1|].
      simpl. destruct (decide (n = n)); [by eexists|done].
    + rewrite bool_decide_eq_false_2 in H by done. simpl in H.
      eapply (IH H (fun j rest' caps' => k j rest' ((m, (i, j)) :: caps')));
        [|exact Hm].
      intros j rest' caps1 e1 caps1' H1 Hs. eapply Hk; [exact H1|].
      by apply assoc_cons_is_Some.
Qed.

Lemma accept_keeps n : keeps n accept.
Proof. by intros i rest caps e caps' [= _ <-]. Qed.

Lemma search_sets n r i rest j e caps :
  has_group n r = true ->
  search r i rest = Some (j, (e, caps)) -> is_Some (assoc n caps).
Proof.
  intros Hg. revert i. induction rest as [|c rest IH]; intros i; simpl.
  - destruct (rmatch r accept i [] []) as [[e1 c1]|] eqn:E; [|done].
    intros [= <- <- <-]. eapply (has_group_sets n r Hg), E. apply accept_keeps.
  - destruct (rmatch r accept i (c :: rest) []) as [[e1 c1]|] eqn:E.
    + intros [= <- <- <-]. eapply (has_group_sets n r Hg), E. apply accept_keeps.
    + apply IH.
Qed.

(** [match[n]] is a string for every group [n] of the pattern. *)
Lemma exec_item_string rx s rx' m n :
  has_group n (pattern rx) = true ->
  exec rx s = (rx', Some m) ->
  exists t, item m n = Str t.
Proof.
  intros Hg. unfold exec.
  destruct (decide _); [done|].
  destruct (search _ _ _) as [[j [e caps]]|] eqn:E; [|done].
  intros [= _ <-]. apply (search_sets n) in E as [[from to] Ha]; [|done].
  unfold item. simpl. rewrite Ha. destruct n; by eexists.
Qed.

End RxFacts.

(* ===================================================================== *)
(** ** The scanning loop                                                  *)
(* ===================================================================== *)

Section ParseLoop.
Import Rx RxFacts.

Lemma set_lastIndex_twice rx a b :
  set_lastIndex (set_lastIndex rx a) b = set_lastIndex rx b.
Proof. done. Qed.

(** One iteration that found a match leaves [lastIndex] strictly above
    where it was, and at most one past the end of the input. *)
Lemma skip_empty_advances rx s rx' m :
  global rx = true ->
  exec rx s = (rx', Some m) ->
  lastIndex rx < lastIndex (skip_empty m rx') <= length s + 1
  /\ exists n, skip_empty m rx' = set_lastIndex rx n.
Proof.
  intros Hg He. apply exec_found in He as (Hi & Hl & _ & ->); [|done].
  unfold skip_empty. simpl.
  destruct (decide (index m = end_index m)); simpl.
  - split; [lia|]. by eexists.
  - split; [lia|]. by eexists.
Qed.

Lemma set_lastIndex_self rx : set_lastIndex rx (lastIndex rx) = rx.
Proof. by destruct rx. Qed.

Context {St : Type}.
Variable f : ExecArray -> St -> outcome St.
Variable Inv : St -> Prop.
Variable rx : RegExp.
Variable source : jsval.
Hypothesis rx_global : global rx = true.
(** The callback completes and keeps the invariant on every match that
    [exec] can hand to it. *)
Hypothesis f_done :
  forall n rx' m st,
    exec (set_lastIndex rx n) (ToString source) = (rx', Some m) ->
    Inv st -> exists st', f m st = Done st' /\ Inv st'.

(** With fuel for every position still ahead and for the last call of
    [exec], the loop runs to its end: [exec] answered [null] and put
    [lastIndex] back to 0. *)
Lemma parse_loop_inv fuel :
  forall n st,
    Inv st ->
    1 <= fuel -> length (ToString source) + 2 <= fuel + n ->
    exists st',
      parse_loop fuel (set_lastIndex rx n) (ToString source) f st
      = Done (set_lastIndex rx 0, st') /\ Inv st'.
Proof.
  induction fuel as [|fuel IH]; intros n st Hst Hpos Hfuel; [lia|].
  simpl. destruct (exec (set_lastIndex rx n) (ToString source)) as [rx' [m|]] eqn:He.
  - destruct (skip_empty_advances (set_lastIndex rx n) _ _ _ rx_global He)
      as ([Hlt Hle] & n' & Hn).
    destruct (f_done _ _ _ st He Hst) as (st1 & -> & Hst1). simpl.
    rewrite Hn in *. simpl in Hlt, Hle.
    destruct (IH n' st1) as (st' & Hp & Hst'); try done; try lia.
    exists st'. by rewrite <- Hp.
  - apply exec_not_found in He as ->; [|done]. by exists st.
Qed.

Lemma parse_inv st :
  Inv st ->
  exists st', parse rx source (Fn f) st = Done (set_lastIndex rx 0, st') /\ Inv st'.
Proof.
  intros Hst. unfold parse, parse_fuel.
  destruct (parse_loop_inv (length (ToString source) + 2) (lastIndex rx) st)
    as (st' & Hp & Hst'); try done; try lia.
  rewrite set_lastIndex_self in Hp. by exists st'.
Qed.

End ParseLoop.

Lemma parse_done {St : Type} (f : Rx.ExecArray -> St -> outcome St)
    (Inv : St -> Prop) :
  (forall m st, Inv st -> exists st', f m st = Done st' /\ Inv st') ->
  forall rx source st,
    Rx.global rx = true -> Inv st ->
    exists st', parse rx source (Fn f) st = Done (Rx.set_lastIndex rx 0, st') /\ Inv st'.
Proof.
  intros Hf rx source st Hg Hst. apply parse_inv; try done.
  intros n rx' m st0 _. apply Hf.
Qed.

Lemma obj_set_strings out k t :
  all_strings out -> all_strings (obj_set out k (Str t)).
Proof.
  intros Ho k' v. unfold obj_set. destruct (decide _); [apply Ho|].
  destruct (decide (k = k')) as [->|Hne].
  - rewrite lookup_insert_eq. intros [= <-]. by eexists.
  - rewrite lookup_insert_ne by done. apply Ho.
Qed.

(** The scan of one comment completes and leaves the [pairs] object with
    [lastIndex] 0, ready for the next comment; what it stores are strings. *)
Lemma scan_comment_done comment out :
  all_strings out ->
  exists out',
    scan_comment comment (rx_pairs, out) = Done (rx_pairs, out') /\ all_strings out'.
Proof.
  intros Hout. unfold scan_comment.
  change (fst (rx_pairs, out)) with rx_pairs.
  change (snd (rx_pairs, out)) with out.
  destruct (parse_inv store_pair all_strings rx_pairs (Rx.item comment 1) eq_refl)
    with (st := out) as (out' & Hp & Hout'); [|done|by exists out'].
  intros n rx' m st He Hst. eexists. split; [done|].
  apply (RxFacts.exec_item_string _ _ _ _ 2) in He as [t ->]; [|done].
  by apply obj_set_strings.
Qed.

(** The scan of the comments completes, with both regular expressions
    back at [lastIndex] 0. *)
Lemma scan_comments_done source :
  exists out,
    parse rx_comments source (Fn scan_comment) (rx_pairs, ∅)
    = Done (rx_comments, (rx_pairs, out))
    /\ all_strings out.
Proof.
  destruct (parse_done scan_comment
              (fun st => fst st = rx_pairs /\ all_strings (snd st)))
    with (rx := rx_comments) (source := source) (st := (rx_pairs, (∅ : jsobject)))
    as ([rx out] & Hp & Hrx & Hs).
  - intros m [rx out] [Hrx Hout]. cbn [fst snd] in *. subst rx.
    destruct (scan_comment_done m out Hout) as (out' & -> & Hout'). by eexists.
  - done.
  - split; [done|]. intros k v. simpl. by rewrite lookup_empty.
  - cbn [fst snd] in *. subst rx. by exists out.
Qed.

Lemma parseComments_strings source :
  exists out, parseComments source = Done out /\ all_strings out.
Proof.
  unfold parseComments. destruct (truthy source); cbn [negb].
  2:{ eexists. split; [done|]. intros k v. by rewrite lookup_empty. }
  destruct (scan_comments_done source) as (out & -> & Hs). by exists out.
Qed.

Lemma parseComments_done source :
  exists out, parseComments source = Done out.
Proof. destruct (parseComments_strings source) as (out & H & _). by exists out. Qed.

(** C7: the scanning loop terminates on every regular expression with the
    [g] flag, every input and every callback that returns, whether or not
    the pattern can match the empty string: each iteration that finds a
    match moves [lastIndex] up by at least one, and the loop ends with
    [exec] answering [null] ([lastIndex] back at 0) within the fuel
    [parse_fuel].  So do the two loops of [parseComments], the scan of the
    comments with the scan of the pairs inside it. *)
Theorem parse_terminates {St : Type} (rx : Rx.RegExp) (source : jsval)
    (f : Rx.ExecArray -> St -> outcome St) (Inv : St -> Prop) (st : St) :
  Rx.global rx = true ->
  (forall m st, Inv st -> exists st', f m st = Done st' /\ Inv st') ->
  Inv st ->
  (forall rx' m, Rx.exec rx (ToString source) = (rx', Some m) ->
     Rx.lastIndex rx + 1 <= Rx.lastIndex (skip_empty m rx'))
  /\ (exists st', parse rx source (Fn f) st = Done (Rx.set_lastIndex rx 0, st') /\ Inv st')
  /\ (exists out, parse rx_comments source (Fn scan_comment) (rx_pairs, ∅)
                  = Done (rx_comments, (rx_pairs, out))).
Proof.
  intros Hg Hf Hst. split; [|split].
  - intros rx' m He. apply skip_empty_advances in He; [lia|done].
  - by apply parse_done.
  - destruct (scan_comments_done source) as (out & H & _). by exists out.
Qed.

Lemma parse_terminates_witness :
  (forall rx' m, Rx.exec rx_blank (ToString (Str (js "ab"))) = (rx', Some m) ->
     Rx.lastIndex rx_blank + 1 <= Rx.lastIndex (skip_empty m rx'))
  /\ (exists n, parse rx_blank (Str (js "ab")) (Fn count_match) 0
                = Done (Rx.set_lastIndex rx_blank 0, n) /\ True)
  /\ (exists out, parse rx_comments (Str (js "ab")) (Fn scan_comment) (rx_pairs, ∅)
                  = Done (rx_comments, (rx_pairs, out))).
Proof.
  apply (parse_terminates rx_blank (Str (js "ab")) count_match (fun _ => True) 0).
  - reflexivity.
  - intros m n _. exists (S n). split; reflexivity.
  - exact I.
Defined.

Example parse_blank : parse rx_blank (Str (js "ab")) (Fn count_match) 0 = Done (rx_blank, 3).
Proof. reflexivity. Qed.

(* ===================================================================== *)
(** ** The four ways a resolution ends                                    *)
(* ===================================================================== *)

Lemma check_cache_trace lang w :
  trace (check_cache lang w) = trace w ++ cache_events lang w.
Proof.
  unfold check_cache, cache_events.
  destruct (decide (Str lang = cache_lang w)); simpl; by rewrite ?app_nil_r.
Qed.

Lemma check_cache_cache lang w :
  cache (check_cache lang w)
  = if decide (Str lang = cache_lang w) then cache w
    else Some {[ js "lang" := Str lang ]}.
Proof. unfold check_cache. by destruct (decide (Str lang = cache_lang w)). Qed.

(** [resolve] always completes: it ends in one of the four ways, after the
    cache check, and leaves the cache as the check left it. *)
Lemma resolve_runs c route w :
  exists res evs,
    resolution c route res evs
    /\ resolve c route w
       = Done (res, mkService (cache (check_cache (selector_resolve c route) w))
                      (trace w ++ cache_events (selector_resolve c route) w ++ evs)).
Proof.
  unfold resolve, path_of. simpl.
  set (path := join _ _). set (lang := selector_resolve c route).
  set (w0 := check_cache lang w).
  assert (Ht : forall evs, trace w0 ++ evs = trace w ++ cache_events lang w ++ evs).
  { intros evs. unfold w0. by rewrite check_cache_trace, <- app_assoc. }
  destruct (loadFile c (root_of route) lang (main_file path)) as [body|e] eqn:E1.
  - unfold on_body.
    destruct (parseComments_done (Str body)) as [options Ho]. rewrite Ho.
    destruct (truthy (obj_get options (js "toc"))) eqn:Et; simpl.
    + destruct (loadFile c (root_of route) lang (ToString (obj_get options (js "toc"))))
        as [toc|e] eqn:E2.
      * eexists _, _. split; [by eapply with_toc|].
        unfold emit; simpl. by rewrite <- !app_assoc, Ht.
      * eexists _, _. split; [by eapply toc_fails|].
        unfold not_found, emit; simpl. by rewrite <- !app_assoc, Ht.
    + eexists _, _. split; [by eapply no_toc|].
      unfold emit; simpl. by rewrite Ht.
  - eexists _, _. split; [by eapply main_fails|].
    unfold not_found, emit; simpl. by rewrite <- !app_assoc, Ht.
Qed.

Lemma resolution_deterministic c route res1 evs1 res2 evs2 :
  resolution c route res1 evs1 -> resolution c route res2 evs2 ->
  res1 = res2 /\ evs1 = evs2.
Proof.
  intros H1 H2.
  destruct H1; inversion H2; subst; try congruence;
    repeat match goal with
    | Ha : loadFile ?c ?r ?l ?f = _, Hb : loadFile ?c ?r ?l ?f = _ |- _ =>
        rewrite Ha in Hb; (discriminate Hb || (injection Hb as ->))
    | Ha : parseComments ?b = _, Hb : parseComments ?b = _ |- _ =>
        rewrite Ha in Hb; injection Hb as ->
    end; try done; try congruence.
Qed.

Lemma only_cache_events kind lang w :
  kind (EReset lang) = false -> only kind (cache_events lang w) = [].
Proof.
  intros Hk. unfold only, cache_events.
  destruct (decide (Str lang = cache_lang w)); [done|].
  rewrite filter_cons_False; [done|]. by rewrite Hk.
Qed.

Lemma only_app kind evs1 evs2 :
  only kind (evs1 ++ evs2) = only kind evs1 ++ only kind evs2.
Proof. apply filter_app. Qed.

Lemma calls_cache_events lang w evs :
  calls (cache_events lang w ++ evs) = calls evs.
Proof.
  unfold calls, cache_events. rewrite filter_app.
  destruct (decide (Str lang = cache_lang w)); [done|].
  by rewrite filter_cons_False.
Qed.



Lemma resolution_no_reset c route res evs :
  resolution c route res evs -> only is_reset evs = [].
Proof. by intros []. Qed.

Lemma cache_lang_fresh lang tr :
  cache_lang (mkService (Some {[ js "lang" := Str lang ]}) tr) = Str lang.
Proof. unfold cache_lang, obj_get. simpl. by rewrite lookup_singleton_eq. Qed.

(** C5: the cache is replaced by a fresh entry that holds the language
    and nothing else exactly when the resolved language differs from the
    language of the entry held, which includes the first request with no
    entry; the replacement is the first thing [resolve] does, ahead of every
    load, and happens once.  With the same language the entry stays as it
    is.  Either way the entry then carries the resolved language, so a next
    [resolve] with that language replaces nothing. *)
Theorem cache_reset_policy (c : Collaborators) (route : ActivatedRouteSnapshot)
    (w : service) :
  exists res w' evs,
    resolve c route w = Done (res, w')
    /\ trace w' = trace w ++ evs
    /\ (cache w = None -> cache_lang w <> Str (selector_resolve c route))
    /\ (cache_lang w <> Str (selector_resolve c route) ->
        cache w' = Some {[ js "lang" := Str (selector_resolve c route) ]}
        /\ exists evs', evs = EReset (selector_resolve c route) :: evs'
                        /\ only is_reset evs' = [])
    /\ (cache_lang w = Str (selector_resolve c route) ->
        cache w' = cache w /\ only is_reset evs = [])
    /\ (forall route2, selector_resolve c route2 = selector_resolve c route ->
        exists res2 w2 evs2,
          resolve c route2 w' = Done (res2, w2)
          /\ trace w2 = trace w' ++ evs2
          /\ cache w2 = cache w' /\ only is_reset evs2 = []).
Proof.
  destruct (resolve_runs c route w) as (res & evs & Hr & Hrun).
  eexists _, _, _. split; [exact Hrun|]. split; [done|].
  set (lang := selector_resolve c route) in *.
  assert (Hsame : forall w0 route0 res0 evs0,
             cache_lang w0 = Str (selector_resolve c route0) ->
             resolution c route0 res0 evs0 ->
             cache (check_cache (selector_resolve c route0) w0) = cache w0
             /\ only is_reset (cache_events (selector_resolve c route0) w0 ++ evs0) = []).
  { intros w0 route0 res0 evs0 Hl Hr0.
    rewrite check_cache_cache. unfold cache_events.
    destruct (decide _) as [_|Hne]; [|by rewrite Hl in Hne].
    split; [done|]. by apply resolution_no_reset in Hr0. }
  split; [|split; [|split]].
  - intros Hc. unfold cache_lang. by rewrite Hc.
  - intros Hne. simpl. rewrite check_cache_cache. unfold cache_events.
    destruct (decide (Str lang = cache_lang w)) as [He|_]; [by rewrite He in Hne|].
    split; [done|]. eexists. split; [done|]. by apply resolution_no_reset in Hr.
  - intros He. simpl. by eapply Hsame.
  - intros route2 Hl2.
    set (W := mkService (cache (check_cache lang w))
                (trace w ++ cache_events lang w ++ evs)).
    destruct (resolve_runs c route2 W) as (res2 & evs2 & Hr2 & Hrun2).
    eexists _, _, _. split; [exact Hrun2|]. split; [done|].
    apply (Hsame W route2 res2 evs2); [|exact Hr2].
    rewrite Hl2. unfold cache_lang, W. cbn [cache]. rewrite check_cache_cache.
    destruct (decide (Str lang = cache_lang w)) as [He|_].
    + by rewrite He.
    + unfold obj_get. by rewrite lookup_singleton_eq.
Qed.

(** C10: what [resolve] answers and the calls it makes do not depend on
    the service's state: from any two states, the same route, selector and
    loader give the same result and the same calls in the same order, the
    first of them the load of the main file; the service itself puts nothing
    into the cache but a fresh entry with the language. *)
Theorem resolve_independent_of_cache (c : Collaborators)
    (route : ActivatedRouteSnapshot) (w1 w2 : service) :
  exists res w1' w2' evs1 evs2,
    resolve c route w1 = Done (res, w1')
    /\ resolve c route w2 = Done (res, w2')
    /\ trace w1' = trace w1 ++ evs1
    /\ trace w2' = trace w2 ++ evs2
    /\ calls evs1 = calls evs2
    /\ (exists more,
          calls evs1 = ELoad (root_of route) (selector_resolve c route)
                         (main_file (path_of route)) :: more)
    /\ (cache w1' = cache w1
        \/ cache w1' = Some {[ js "lang" := Str (selector_resolve c route) ]}).
Proof.
  destruct (resolve_runs c route w1) as (res1 & evs1 & Hr1 & Hrun1).
  destruct (resolve_runs c route w2) as (res2 & evs2 & Hr2 & Hrun2).
  destruct (resolution_deterministic _ _ _ _ _ _ Hr1 Hr2) as [<- <-].
  eexists _, _, _, _, _. split; [exact Hrun1|]. split; [exact Hrun2|].
  split; [done|]. split; [done|]. simpl.
  rewrite !calls_cache_events. split; [done|]. split.
  - destruct Hr1; by eexists.
  - rewrite check_cache_cache. destruct (decide _); auto.
Qed.

(** C9: when the options of the main file hold [toc] with the empty
    string, [resolve] takes the branch without table of contents: the one
    load it issues is that of the main file, it does not navigate, and the
    result, the body and the path with the options spread over them, still
    has a [toc] property, the empty string. *)
Theorem empty_toc_kept_without_load (c : Collaborators)
    (route : ActivatedRouteSnapshot) (w : service) (body : jsstring)
    (options : jsobject) :
  loadFile c (root_of route) (selector_resolve c route)
    (main_file (path_of route)) = Emits body ->
  parseComments (Str body) = Done options ->
  options !! js "toc" = Some (Str []) ->
  exists res w' evs,
    resolve c route w = Done (res, w')
    /\ trace w' = trace w ++ evs
    /\ only is_load evs
       = [ELoad (root_of route) (selector_resolve c route) (main_file (path_of route))]
    /\ only is_navigate evs = []
    /\ res = spread (<[ js "path" := Str (path_of route) ]> {[ js "body" := Str body ]})
               options
    /\ res !! js "toc" = Some (Str []).
Proof.
  intros H1 Ho Ht.
  destruct (resolve_runs c route w) as (res & evs & Hr & ->).
  eexists _, _, _. split; [done|]. split; [done|].
  rewrite !only_app, !only_cache_events by done. simpl.
  assert (Hfalsy : truthy (obj_get options (js "toc")) = false).
  { unfold obj_get. by rewrite Ht. }
  destruct Hr as [e H1'|body' options' H1' Ho' Ht'|body' options' e H1' Ho' Ht' H2
                 |body' options' toc H1' Ho' Ht' H2];
    rewrite H1 in H1'; try discriminate H1'; injection H1' as <-;
    rewrite Ho in Ho'; injection Ho' as <-; try congruence.
  repeat split; try done. unfold spread. by apply lookup_union_Some_l.
Qed.

Lemma empty_toc_kept_without_load_witness :
  exists res w' evs,
    resolve (english empty_toc_loader) guide_route fresh_service = Done (res, w')
    /\ trace w' = trace fresh_service ++ evs
    /\ only is_load evs
       = [ELoad (root_of guide_route)
            (selector_resolve (english empty_toc_loader) guide_route)
            (main_file (path_of guide_route))]
    /\ only is_navigate evs = []
    /\ res = spread (<[ js "path" := Str (path_of guide_route) ]>
                       {[ js "body" := Str (js "# Guide <!-- toc: -->") ]})
               {[ js "toc" := Str [] ]}
    /\ res !! js "toc" = Some (Str []).
Proof.
  apply (empty_toc_kept_without_load (english empty_toc_loader) guide_route
           fresh_service (js "# Guide <!-- toc: -->") {[ js "toc" := Str [] ]}).
  - vm_compute. reflexivity.
  - vm_compute. reflexivity.
  - vm_compute. reflexivity.
Defined.

(** C2, as the claim states it, fails: here the result has a [toc]
    property although the only load is that of the main file. *)
Lemma toc_without_second_load :
  exists res w',
    resolve (english empty_toc_loader) guide_route fresh_service = Done (res, w')
    /\ res !! js "toc" = Some (Str [])
    /\ trace w' = [EReset (js "en"); ELoad (js "assets/docs") (js "en") (js "guide.md")].
Proof. eexists _, _. split; [vm_compute; reflexivity|]. split; vm_compute; reflexivity. Qed.

Lemma obj_get_truthy (o : jsobject) k :
  truthy (obj_get o k) = true ->
  exists t, o !! k = Some (Str t) /\ t <> [] /\ ToString (obj_get o k) = t.
Proof.
  unfold obj_get. destruct (o !! k) as [[| |[|u t]]|]; try done.
  intros _. by eexists.
Qed.

Lemma obj_get_falsy (o : jsobject) k :
  all_strings o ->
  truthy (obj_get o k) = false ->
  o !! k = None \/ o !! k = Some (Str []).
Proof.
  intros Ho. unfold obj_get. destruct (o !! k) as [v|] eqn:E; [|by left].
  destruct (Ho _ _ E) as [[|u t] ->]; [by right|done].
Qed.

Lemma parseComments_all_strings source out :
  parseComments source = Done out -> all_strings out.
Proof.
  intros H. destruct (parseComments_strings source) as (out' & H' & Hs).
  rewrite H in H'. by injection H' as ->.
Qed.

(** C2, as the code has it: the result has a [toc] property only if the
    options of the main file hold a [toc] key.  When the value of that key
    is not empty, the property is the text of the second file, whose load
    succeeded; when it is empty, the property is that empty string and the
    main file is the only load.  When the options hold no [toc] key, the
    main file is the only load and the result has no [toc] property. *)
Theorem toc_field_origin (c : Collaborators) (route : ActivatedRouteSnapshot)
    (w : service) :
  exists res w' evs,
    resolve c route w = Done (res, w')
    /\ trace w' = trace w ++ evs
    /\ (forall v, res !! js "toc" = Some v ->
        exists body options t,
          loadFile c (root_of route) (selector_resolve c route)
            (main_file (path_of route)) = Emits body
          /\ parseComments (Str body) = Done options
          /\ options !! js "toc" = Some (Str t)
          /\ ((t <> []
               /\ exists toc,
                    loadFile c (root_of route) (selector_resolve c route) t = Emits toc
                    /\ v = Str toc
                    /\ only is_load evs
                       = [ELoad (root_of route) (selector_resolve c route)
                            (main_file (path_of route));
                          ELoad (root_of route) (selector_resolve c route) t])
              \/ (t = [] /\ v = Str []
                  /\ only is_load evs
                     = [ELoad (root_of route) (selector_resolve c route)
                          (main_file (path_of route))])))
    /\ (forall body options,
          loadFile c (root_of route) (selector_resolve c route)
            (main_file (path_of route)) = Emits body ->
          parseComments (Str body) = Done options ->
          options !! js "toc" = None ->
          res !! js "toc" = None
          /\ only is_load evs
             = [ELoad (root_of route) (selector_resolve c route)
                  (main_file (path_of route))]).
Proof.
  destruct (resolve_runs c route w) as (res & evs & Hr & ->).
  eexists _, _, _. split; [done|]. split; [done|].
  rewrite !only_app, !only_cache_events by done. simpl.
  destruct Hr as [e H1|body options H1 Ho Ht|body options e H1 Ho Ht H2
                 |body options toc H1 Ho Ht H2].
  - split; [intros v; unfold degraded; by rewrite lookup_singleton_ne|].
    intros body options H1'. congruence.
  - pose proof (parseComments_all_strings _ _ Ho) as Hs.
    destruct (obj_get_falsy _ _ Hs Ht) as [Hn|He].
    + split.
      * intros v. unfold spread. rewrite lookup_union_l by done.
        by rewrite Hn.
      * intros body' options' _ _ _. split; [|done].
        unfold spread. apply lookup_union_None. split; [done|].
        by rewrite lookup_insert_ne, lookup_singleton_ne.
    + split.
      * intros v. unfold spread. erewrite lookup_union_Some_l by exact He.
        intros [= <-]. exists body, options, []. repeat split; try done.
        right. done.
      * intros body' options' H1' Ho' Hn.
        rewrite H1 in H1'. injection H1' as <-.
        rewrite Ho in Ho'. injection Ho' as <-. congruence.
  - split; [intros v; unfold degraded; by rewrite lookup_singleton_ne|].
    intros body' options' H1' Ho' Hn.
    rewrite H1 in H1'. injection H1' as <-.
    rewrite Ho in Ho'. injection Ho' as <-.
    apply obj_get_truthy in Ht as (t & Ht & _). congruence.
  - destruct (obj_get_truthy _ _ Ht) as (t & Hk & Hne & Hts). rewrite Hts in *.
    split.
    + intros v. rewrite lookup_insert_eq. intros [= <-].
      exists body, options, t. repeat split; try done.
      left. split; [done|]. by exists toc.
    + intros body' options' H1' Ho' Hn.
      rewrite H1 in H1'. injection H1' as <-.
      rewrite Ho in Ho'. injection Ho' as <-. congruence.
Qed.

(** Without a comment in the text there is nothing to scan. *)
Lemma parseComments_no_comment s :
  snd (Rx.exec rx_comments s) = None -> parseComments (Str s) = Done ∅.
Proof.
  intros He. unfold parseComments. destruct s as [|u s]; [done|].
  cbn [truthy negb]. unfold parse, parse_fuel. cbn [ToString].
  rewrite Nat.add_comm. cbn [Nat.add parse_loop].
  destruct (Rx.exec rx_comments (u :: s)) as [rx' [m|]]; [done|]. done.
Qed.

(** C8: [parseComments] answers the empty object for the empty string,
    for [undefined] and for [null]; for every input it completes with an
    object and never throws; a text in which no comment is closed, or whose
    comment holds no [key:], gives the empty object. *)
Theorem parseComments_never_fails :
  parseComments (Str []) = Done ∅
  /\ parseComments Undefined = Done ∅
  /\ parseComments Null = Done ∅
  /\ (forall source, exists out, parseComments source = Done out)
  /\ (forall s, snd (Rx.exec rx_comments s) = None -> parseComments (Str s) = Done ∅)
  /\ parseComments (Str (js "<!-- toc: a.md")) = Done ∅
  /\ parseComments (Str (js "toc: a.md -->")) = Done ∅
  /\ parseComments (Str (js "<!-- toc a.md -->")) = Done ∅.
Proof.
  split; [done|]. split; [done|]. split; [done|].
  split; [apply parseComments_done|].
  split; [apply parseComments_no_comment|].
  repeat split; vm_compute; reflexivity.
Qed.

(** The examples of the specification. *)
Example extract_two_pairs :
  parseComments (Str (js "<!-- toc: nav.md
ref: v1 -->"))
  = Done (<[ js "ref" := Str (js "v1") ]> {[ js "toc" := Str (js "nav.md") ]}).
Proof. vm_compute. reflexivity. Qed.

Example extract_last_wins :
  parseComments (Str (js "<!-- toc: a.md --><!-- toc: b.md -->"))
  = Done {[ js "toc" := Str (js "b.md") ]}.
Proof. vm_compute. reflexivity. Qed.

(** C6 at the input that breaks it: the pair is found, and the assignment
    to the key [__proto__] of the plain object leaves no property. *)
Theorem extract_proto_pair_lost :
  (exists m, snd (Rx.exec rx_pairs (js " __proto__: x ")) = Some m
             /\ Rx.item m 1 = Str (js "__proto__") /\ Rx.item m 2 = Str (js "x"))
  /\ parseComments (Str (js "<!-- __proto__: x -->")) = Done ∅
  /\ parseComments (Str (js "<!-- __proto__: x --><!-- toc: a.md -->"))
     = Done {[ js "toc" := Str (js "a.md") ]}.
Proof.
  split; [eexists; repeat split; vm_compute; reflexivity|].
  split; vm_compute; reflexivity.
Qed.

(* ===================================================================== *)
(** ** Path assembly                                                      *)
(* ===================================================================== *)

Lemma strip_prefix_spec l s rest :
  strip_prefix l s = Some rest <-> s = l ++ rest.
Proof.
  revert s. induction l as [|c l IH]; intros s; simpl.
  - split; [by intros [= ->]|by intros ->].
  - destruct s as [|d s]; [done|].
    destruct (decide (d = c)) as [->|Hne].
    + rewrite IH. split; [by intros ->|by intros [= ->]].
    + split; [done|]. intros [= ? _]. done.
Qed.

Lemma in_class_lit c d : Rx.in_class [Rx.ALit c] d = bool_decide (d = c).
Proof.
  unfold Rx.in_class. simpl. rewrite orb_false_r.
  destruct (N.eqb_spec d c);
    [by rewrite bool_decide_eq_true_2|by rewrite bool_decide_eq_false_2].
Qed.

(** A run of literal characters matches exactly that prefix. *)
Lemma rmatch_lit l k i s caps :
  Rx.rmatch (Rx.lit_units l) k i s caps
  = match strip_prefix l s with
    | Some rest => k (length l + i) rest caps
    | None => None
    end.
Proof.
  revert i s. induction l as [|c l IH]; intros i s; [done|].
  assert (Hone : forall k', Rx.one [Rx.ALit c] k' i s caps
            = match s with
              | d :: s' => if decide (d = c) then k' (S i) s' caps else None
              | [] => None
              end).
  { intros k'. unfold Rx.one. destruct s as [|d s]; [done|].
    rewrite in_class_lit.
    destruct (decide (d = c));
      [by rewrite bool_decide_eq_true_2|by rewrite bool_decide_eq_false_2]. }
  destruct l as [|c' l].
  - simpl. rewrite Hone. destruct s as [|d s]; [reflexivity|].
    destruct (decide (d = c)); reflexivity.
  - change (Rx.rmatch (Rx.lit_units (c :: c' :: l)) k i s caps)
      with (Rx.one [Rx.ALit c] (Rx.rmatch (Rx.lit_units (c' :: l)) k) i s caps).
    rewrite Hone. destruct s as [|d s]; [reflexivity|].
    change (strip_prefix (c :: c' :: l) (d :: s))
      with (if decide (d = c) then strip_prefix (c' :: l) s else None).
    destruct (decide (d = c)); [|reflexivity].
    rewrite IH. destruct (strip_prefix (c' :: l) s); [|reflexivity].
    f_equal. simpl. lia.
Qed.

(** A greedy class quantifier that must reach the end of the input. *)
Lemma star_to_end cs i s caps :
  Rx.star true cs (Rx.rmatch Rx.REol Rx.accept) i s caps
  = if forallb (Rx.in_class cs) s then Some (length s + i, caps) else None.
Proof.
  revert i. induction s as [|c s IH]; intros i; [done|].
  simpl. destruct (Rx.in_class cs c); [|done]. rewrite IH. simpl.
  destruct (forallb (Rx.in_class cs) s); [|done]. f_equal. f_equal. lia.
Qed.

(** A pattern anchored at the start matches at position 0 or nowhere. *)
Lemma search_anchored r i s :
  i <> 0 -> Rx.search (Rx.RSeq Rx.RBol r) i s = None.
Proof.
  revert i. induction s as [|c s IH]; intros i Hi; simpl.
  - by destruct (decide (i = 0)).
  - destruct (decide (i = 0)); [done|]. by apply IH.
Qed.

Lemma is_digit_class c : Rx.in_class [Rx.ADigit] c = Rx.is_digit c.
Proof. unfold Rx.in_class. simpl. by rewrite orb_false_r. Qed.

Lemma search_anchored_0 r s :
  Rx.search (Rx.RSeq Rx.RBol r) 0 s
  = match Rx.rmatch (Rx.RSeq Rx.RBol r) Rx.accept 0 s [] with
    | Some m => Some (0, m)
    | None => None
    end.
Proof.
  destruct s as [|c s]; cbn [Rx.search];
    destruct (Rx.rmatch (Rx.RSeq Rx.RBol r) Rx.accept 0 _ []); try reflexivity.
  by apply search_anchored.
Qed.

Lemma str_match_anchored r s :
  Rx.str_match s (Rx.literal (Rx.RSeq Rx.RBol r) false)
  = match Rx.rmatch r Rx.accept 0 s [] with
    | Some (e, caps) => Some (Rx.mkExecArray 0 e s caps)
    | None => None
    end.
Proof.
  unfold Rx.str_match, Rx.exec, Rx.literal.
  cbn [Rx.global Rx.pattern Rx.lastIndex].
  destruct (decide (length s < 0)); [lia|].
  rewrite drop_0, search_anchored_0.
  change (Rx.rmatch (Rx.RSeq Rx.RBol r) Rx.accept 0 s [])
    with (Rx.rmatch r Rx.accept 0 s []).
  by destruct (Rx.rmatch r Rx.accept 0 s []) as [[e caps]|].
Qed.

(** The regular expression [/^path\d*$/] accepts exactly the keys that are
    [path] followed by digits only. *)
Lemma is_path_key_spec key : is_path_key key = true <-> PathKey key.
Proof.
  unfold is_path_key, PathKey, rx_path_key.
  rewrite bool_decide_eq_true, str_match_anchored.
  change (Rx.rmatch _ Rx.accept 0 key [])
    with (Rx.rmatch (Rx.lit_units (js "path"))
            (Rx.star true [Rx.ADigit] (Rx.rmatch Rx.REol Rx.accept)) 0 key []).
  rewrite rmatch_lit.
  destruct (strip_prefix (js "path") key) as [rest|] eqn:Ep.
  - apply strip_prefix_spec in Ep as ->. rewrite star_to_end.
    assert (Hd : forallb (Rx.in_class [Rx.ADigit]) rest = true
                 <-> Forall (fun c => Rx.is_digit c = true) rest).
    { rewrite forallb_forall, Forall_forall.
      split; intros H c Hc; specialize (H c); rewrite is_digit_class in *;
        apply H; by apply list_elem_of_In. }
    destruct (forallb (Rx.in_class [Rx.ADigit]) rest).
    + split; [intros _|by eexists]. exists rest. split; [done|]. by apply Hd.
    + split; [by intros [? ?]|]. intros (ds & Heq & Hds).
      apply app_inv_head in Heq as <-. by apply Hd in Hds.
  - split; [by intros [? ?]|]. intros (ds & -> & _).
    assert (strip_prefix (js "path") (js "path" ++ ds) = Some ds) as He
      by by apply strip_prefix_spec.
    congruence.
Qed.

(** With distinct keys, [get] answers the value paired with each key. *)
Lemma value_of_own segs :
  NoDup segs.*1 -> Forall (fun kv => value_of kv.1 segs = kv.2) segs.
Proof.
  induction segs as [|[k v] segs IH]; intros Hnd; [done|].
  apply NoDup_cons in Hnd as [Hk Hnd]. constructor.
  - simpl. by destruct (decide (k = k)).
  - eapply Forall_impl.
    + apply Forall_and. split; [apply IH, Hnd|apply Forall_forall; intros kv Hkv; exact Hkv].
    + intros [k' v'] [Hv Hin]. simpl in *.
      destruct (decide (k = k')) as [->|_]; [|done].
      exfalso. apply Hk. apply list_elem_of_fmap. by exists (k', v').
Qed.

Lemma map_filter_keys (P : jsstring -> bool) (g : jsstring -> jsval)
    (segs : list (jsstring * jsval)) :
  Forall (fun kv => g kv.1 = kv.2) segs ->
  map g (filter (fun key => P key = true) segs.*1)
  = (filter (fun kv => P kv.1 = true) segs).*2.
Proof.
  induction 1 as [|[k v] segs Hkv _ IH]; [done|].
  rewrite fmap_cons, !filter_cons. cbn [fst]. destruct (decide (P k = true)).
  - simpl in *. by rewrite Hkv, IH.
  - exact IH.
Qed.

Lemma filter_none {A} (P : A -> Prop) `{forall x, Decision (P x)} (l : list A) :
  Forall (fun x => ~ P x) l -> filter P l = [].
Proof.
  induction 1 as [|x l Hx _ IH]; [done|]. by rewrite filter_cons_False.
Qed.

(** C4: on an ordered sequence of pairs with distinct keys, the path is
    the values of the pairs whose key is [path] followed by digits only,
    in the order of the sequence, joined by one [/]; it is the empty string
    when no key is of that form; the pairs [path], [path1], [path2] with
    [a], [b], [c] give [a/b/c], whatever stands between them. *)
Theorem resolvePath_joins_path_segments (segs : list (jsstring * jsval)) :
  NoDup segs.*1 ->
  (forall key, is_path_key key = true <-> PathKey key)
  /\ resolvePath (Some (params_of segs))
     = Some (join (js "/") (filter (fun kv => is_path_key kv.1 = true) segs).*2)
  /\ (Forall (fun kv => ~ PathKey kv.1) segs ->
      resolvePath (Some (params_of segs)) = Some [])
  /\ resolvePath
       (Some (params_of [(js "id", Str (js "7")); (js "path", Str (js "a"));
                         (js "path1", Str (js "b")); (js "lang", Str (js "en"));
                         (js "path2", Str (js "c")); (js "pathway", Str (js "x"))]))
     = Some (js "a/b/c").
Proof.
  intros Hnd. split; [apply is_path_key_spec|].
  assert (Hr : resolvePath (Some (params_of segs))
     = Some (join (js "/") (filter (fun kv => is_path_key kv.1 = true) segs).*2)).
  { unfold resolvePath, params_of. cbn [keys get]. do 2 f_equal.
    apply (map_filter_keys is_path_key). by apply value_of_own. }
  split; [exact Hr|]. split; [|vm_compute; reflexivity].
  intros Hno. rewrite Hr, filter_none; [done|].
  eapply Forall_impl; [exact Hno|]. intros kv Hkv Hp. by apply Hkv, is_path_key_spec.
Qed.

Lemma resolvePath_joins_path_segments_witness :
  (forall key, is_path_key key = true <-> PathKey key)
  /\ resolvePath (Some (params_of [(js "path1", Str (js "b")); (js "path", Str (js "a"))]))
     = Some (join (js "/")
               (filter (fun kv => is_path_key kv.1 = true)
                  [(js "path1", Str (js "b")); (js "path", Str (js "a"))]).*2)
  /\ (Forall (fun kv => ~ PathKey kv.1)
        [(js "path1", Str (js "b")); (js "path", Str (js "a"))] ->
      resolvePath (Some (params_of [(js "path1", Str (js "b")); (js "path", Str (js "a"))]))
      = Some [])
  /\ resolvePath
       (Some (params_of [(js "id", Str (js "7")); (js "path", Str (js "a"));
                         (js "path1", Str (js "b")); (js "lang", Str (js "en"));
                         (js "path2", Str (js "c")); (js "pathway", Str (js "x"))]))
     = Some (js "a/b/c").
Proof.
  apply (resolvePath_joins_path_segments
           [(js "path1", Str (js "b")); (js "path", Str (js "a"))]).
  apply (bool_decide_unpack _). vm_compute. exact I.
Defined.

Example resolvePath_declaration_order :
  resolvePath (Some (params_of [(js "path1", Str (js "b")); (js "path", Str (js "a"))]))
  = Some (js "b/a").
Proof. vm_compute. reflexivity. Qed.

(** ** Missing values *)

Lemma includes_intro pat a b : includes pat (a ++ pat ++ b) = true.
Proof.
  induction a as [|c a IH].
  - assert (strip_prefix pat (pat ++ b) = Some b) as He by by apply strip_prefix_spec.
    destruct pat, b; simpl in *; by rewrite ?He.
  - cbn [app includes]. rewrite IH. by destruct (strip_prefix pat _).
Qed.

Lemma includes_elim pat s :
  includes pat s = true -> exists a b, s = a ++ pat ++ b.
Proof.
  induction s as [|c s IH]; cbn [includes].
  - destruct (strip_prefix pat []) as [rest|] eqn:E; [|done].
    intros _. apply strip_prefix_spec in E. by exists [], rest.
  - destruct (strip_prefix pat (c :: s)) as [rest|] eqn:E.
    + intros _. apply strip_prefix_spec in E. by exists [], rest.
    + intros (a & b & ->)%IH. by exists (c :: a), b.
Qed.

(** A text free of the separator that occurs in [x ++ c :: y] occurs in
    [x] or in [y]. *)
Lemma includes_across pat c x y :
  c ∉ pat ->
  includes pat (x ++ c :: y) = true ->
  includes pat x = true \/ includes pat y = true.
Proof.
  intros Hc (a & b & Heq)%includes_elim.
  symmetry in Heq. apply app_eq_app in Heq as [l [[-> Heq]|[-> Heq]]].
  - destruct l as [|d l]; simpl in Heq.
    + destruct pat as [|d pat]; [left; by destruct x|].
      injection Heq as <- _. exfalso. apply Hc. left.
    + injection Heq as <- ->. right. apply includes_intro.
  - apply app_eq_app in Heq as [l2 [[-> Heq]|[-> Heq]]].
    + destruct l2 as [|d l2]; simpl in Heq.
      * rewrite app_nil_r. left.
        pose proof (includes_intro l a []) as Hi. by rewrite app_nil_r in Hi.
      * injection Heq as <- _. exfalso. apply Hc.
        apply elem_of_app. right. left.
    + left. apply includes_intro.
Qed.

(** A text free of the separator that occurs in the joined string occurs
    in one of the joined items. *)
Lemma includes_join pat c items :
  pat <> [] -> c ∉ pat ->
  includes pat (join [c] items) = true ->
  Exists (fun v => includes pat (join_item v) = true) items.
Proof.
  intros Hne Hc. induction items as [|v items IH]; intros Hi.
  - destruct pat; [done|]. simpl in Hi. done.
  - destruct items as [|v' items].
    + by left.
    + change (join [c] (v :: v' :: items))
        with (join_item v ++ c :: join [c] (v' :: items)) in Hi.
      apply includes_across in Hi as [Hi|Hi]; [by left|by right; apply IH|done].
Qed.

(** [null] and [undefined] join as the empty string does. *)
Lemma join_missing_as_empty sep items :
  join sep items = join sep (map (fun v => Str (join_item v)) items).
Proof.
  induction items as [|v items IH]; [done|].
  destruct items as [|v' items]; [done|].
  change (join sep (v :: v' :: items))
    with (join_item v ++ sep ++ join sep (v' :: items)).
  by rewrite IH.
Qed.

(** C3, as the claim states it, fails: the key [path] matches and has no
    value, and the path is assembled all the same. *)
Lemma resolvePath_missing_value_no_failure :
  is_path_key (js "path") = true
  /\ get missing_value_params (js "path") = Null
  /\ resolvePath (Some missing_value_params) = Some (js "/b").
Proof. repeat split; vm_compute; reflexivity. Qed.

(** C3, as the code has it: path assembly never fails.  A matching key
    without a value contributes the empty string to the joined path, and
    nothing stands in for it: when no value of a matching key contains
    [undefined], the path does not contain it. *)
Theorem resolvePath_missing_value_is_empty (p : ParamMap) :
  exists path,
    resolvePath (Some p) = Some path
    /\ path = join (js "/")
                (map (fun key => Str (join_item (get p key)))
                   (filter (fun key => is_path_key key = true) (keys p)))
    /\ (Forall (fun key => includes (js "undefined") (join_item (get p key)) = false)
          (filter (fun key => is_path_key key = true) (keys p)) ->
        includes (js "undefined") path = false).
Proof.
  eexists. split; [done|]. split.
  - by rewrite join_missing_as_empty, map_map.
  - intros Hall.
    destruct (includes (js "undefined") _) eqn:E; [exfalso|done].
    apply (includes_join _ 47) in E; [|done|].
    + apply Exists_exists in E as (v & Hv & Hi).
      apply list_elem_of_fmap in Hv as (key & -> & Hkey).
      eapply Forall_forall in Hall; [|exact Hkey]. congruence.
    + intros Hin. vm_compute in Hin.
      repeat (apply elem_of_cons in Hin as [Hin|Hin]; [done|]).
      by apply elem_of_nil in Hin.
Qed.

(* ===================================================================== *)
(** ** The loop as a fold over the matches                                *)
(* ===================================================================== *)

Lemma ordered_from_weaken n n' ms : n <= n' -> ordered_from n' ms -> ordered_from n ms.
Proof. destruct ms as [|m ms]; [done|]. simpl. intros Hn (H1 & H2 & H3). split; [lia|done]. Qed.

(** Whatever the callback, the loop visits the matches that [collect]
    records, in that order, and they follow the text. *)
Lemma parse_loop_collect fuel :
  forall rx s acc rx' ms,
    Rx.global rx = true ->
    parse_loop fuel rx s collect acc = Done (rx', ms) ->
    exists found,
      ms = acc ++ found
      /\ ordered_from (Rx.lastIndex rx) found
      /\ forall (St : Type) (f : Rx.ExecArray -> St -> outcome St) (st : St),
           parse_loop fuel rx s f st
           = (st' <- fold_matches f found st ;; Done (rx', st')).
Proof.
  induction fuel as [|fuel IH]; intros rx s acc rx' ms Hg; [done|].
  simpl. destruct (Rx.exec rx s) as [rx1 [m|]] eqn:He.
  - destruct (skip_empty_advances _ _ _ _ Hg He) as ([Hlt Hle] & n' & Hn).
    pose proof (RxFacts.exec_found _ _ _ _ Hg He) as (Hi & _ & _ & Hrx1).
    unfold collect at 1. simpl. intros Hp.
    rewrite Hn in *. apply IH in Hp as (found & -> & Hord & Hf); [|done].
    exists (m :: found). split; [by rewrite <- app_assoc|]. split.
    + simpl. split; [lia|]. split; [lia|].
      eapply ordered_from_weaken; [|exact Hord]. simpl.
      subst rx1. unfold skip_empty in Hn. simpl in Hn.
      destruct (decide _); injection Hn as <-; lia.
    + intros St f st. simpl. destruct (f m st) as [st1| |]; simpl; [|done|done].
      apply Hf.
  - intros [= <- <-]. exists []. split; [by rewrite app_nil_r|]. split; [done|].
    intros St f st. done.
Qed.

(** [parse] is the fold of its callback over [matches]. *)
Lemma parse_as_fold {St : Type} rx source (f : Rx.ExecArray -> St -> outcome St) st :
  Rx.global rx = true ->
  parse rx source (Fn f) st
  = (st' <- fold_matches f (matches rx source) st ;; Done (Rx.set_lastIndex rx 0, st'))
  /\ ordered_from (Rx.lastIndex rx) (matches rx source).
Proof.
  intros Hg. unfold matches.
  destruct (parse_done collect (fun _ => True)) with
    (rx := rx) (source := source) (st := @nil Rx.ExecArray) as (ms & Hp & _);
    [by intros; eexists|done|done|].
  rewrite Hp. cbn [snd]. unfold parse in *.
  apply parse_loop_collect in Hp as (found & -> & Hord & Hf); [|done].
  split; [apply Hf|done].
Qed.

Lemma fold_store_pair ms out :
  fold_matches store_pair ms out = Done (assign_all out (pair_of <$> ms)).
Proof.
  revert out. induction ms as [|m ms IH]; intros out; [done|].
  simpl. apply IH.
Qed.

Lemma scan_comment_as_fold comment out :
  scan_comment comment (rx_pairs, out)
  = Done (rx_pairs, assign_all out (pairs_in comment)).
Proof.
  unfold scan_comment, pairs_in. cbn [fst snd].
  destruct (parse_as_fold rx_pairs (Rx.item comment 1) store_pair out eq_refl)
    as [-> _].
  by rewrite fold_store_pair.
Qed.

Lemma fold_scan_comment comments out :
  fold_matches scan_comment comments (rx_pairs, out)
  = Done (rx_pairs, assign_all out (concat (pairs_in <$> comments))).
Proof.
  revert out. induction comments as [|m ms IH]; intros out; [done|].
  cbn [fold_matches]. rewrite scan_comment_as_fold. cbn [bind].
  rewrite IH. unfold assign_all. by rewrite fmap_cons, concat_cons, foldl_app.
Qed.

(** [parseComments] assigns the pairs of the text in the order found. *)
Lemma parseComments_as_fold source :
  truthy source = true ->
  parseComments source = Done (assign_all ∅ (all_pairs source)).
Proof.
  intros Ht. unfold parseComments, all_pairs. rewrite Ht. cbn [negb].
  destruct (parse_as_fold rx_comments source scan_comment (rx_pairs, ∅) eq_refl)
    as [-> _].
  by rewrite fold_scan_comment.
Qed.






Example all_pairs_in_order :
  all_pairs (Str (js "<!-- b: 1 a: 2 --> x: 0 <!-- a: 3 __proto__: 4 -->"))
  = [(js "b", Str (js "1")); (js "a", Str (js "2")); (js "a", Str (js "3"));
     (js "__proto__", Str (js "4"))].
Proof. vm_compute. reflexivity. Qed.

(* ===================================================================== *)
(** ** Resolutions of the sample site                                     *)
(* ===================================================================== *)

(** The end-to-end example: the document [guide] under [docs]. *)
Example resolve_guide :
  resolve (english docs_loader) (mkRoute (Str (js "docs")) guide_params) fresh_service
  = Done (<[ js "ref" := Str (js "1.0") ]>
            (<[ js "path" := Str (js "guide") ]>
               {[ js "body" := Str guide_text ]}),
          mkService (Some {[ js "lang" := Str (js "en") ]})
            [EReset (js "en"); ELoad (js "docs") (js "en") (js "guide.md")]).
Proof. vm_compute. reflexivity. Qed.

(** A table of contents that cannot be loaded: one navigation, an empty
    body. *)
Example resolve_toc_missing :
  resolve (english missing_toc_loader) guide_route fresh_service
  = Done (degraded,
          mkService (Some {[ js "lang" := Str (js "en") ]})
            [EReset (js "en");
             ELoad (js "assets/docs") (js "en") (js "guide.md");
             ELoad (js "assets/docs") (js "en") (js "nav.md");
             ENavigate [js "/not-found"]]).
Proof. vm_compute. reflexivity. Qed.

(** The options are spread last: a [body] option replaces the text. *)
Example resolve_body_option :
  exists res w',
    resolve (english body_option_loader) guide_route fresh_service = Done (res, w')
    /\ res !! js "body" = Some (Str (js "none")).
Proof. eexists _, _. split; vm_compute; reflexivity. Qed.

(* ===================================================================== *)
(** ** Runs of the matcher                                                *)
(* ===================================================================== *)

(** A class followed by [k] takes one character of the class and goes on
    with [k]. *)
Lemma one_run cs k i rest caps r :
  Rx.one cs k i rest caps = Some r ->
  exists c rest',
    rest = c :: rest' /\ Rx.in_class cs c = true /\ k (S i) rest' caps = Some r.
Proof.
  unfold Rx.one. destruct rest as [|c rest']; [done|].
  destruct (Rx.in_class cs c) eqn:E; [|done]. intros H. by exists c, rest'.
Qed.

(** A quantified class followed by [k] takes some characters of the class
    and goes on with [k], greedy or lazy. *)
Lemma star_run g cs k i rest caps r :
  Rx.star g cs k i rest caps = Some r ->
  exists d,
    d <= length rest
    /\ forallb (Rx.in_class cs) (take d rest) = true
    /\ k (i + d) (drop d rest) caps = Some r.
Proof.
  revert i. induction rest as [|c rest IH]; intros i; simpl.
  - intros H. exists 0. rewrite Nat.add_0_r. by repeat split.
  - assert (Hzero : k i (c :: rest) caps = Some r ->
              exists d, d <= S (length rest)
                /\ forallb (Rx.in_class cs) (take d (c :: rest)) = true
                /\ k (i + d) (drop d (c :: rest)) caps = Some r).
    { intros H. exists 0. rewrite Nat.add_0_r. split; [lia|]. by split. }
    assert (Hmore : Rx.in_class cs c = true ->
              Rx.star g cs k (S i) rest caps = Some r ->
              exists d, d <= S (length rest)
                /\ forallb (Rx.in_class cs) (take d (c :: rest)) = true
                /\ k (i + d) (drop d (c :: rest)) caps = Some r).
    { intros Hc (d & Hd & Hall & Hk)%IH. exists (S d). split; [lia|].
      split; [simpl; by rewrite Hc|]. by rewrite Nat.add_succ_r. }
    destruct (Rx.in_class cs c) eqn:Hc; [|done].
    destruct g.
    + destruct (Rx.star true cs k (S i) rest caps) as [m|] eqn:E; [|done].
      intros [= <-]. by apply Hmore.
    + destruct (k i (c :: rest) caps) as [m|] eqn:E.
      * intros [= <-]. by apply Hzero.
      * by apply Hmore.
Qed.

(** The search answers a position at which the matcher succeeds. *)
Lemma search_sound r i rest j m :
  Rx.search r i rest = Some (j, m) ->
  exists d,
    d <= length rest /\ j = i + d
    /\ Rx.rmatch r Rx.accept (i + d) (drop d rest) [] = Some m.
Proof.
  revert i. induction rest as [|c rest IH]; intros i; simpl.
  - destruct (Rx.rmatch r Rx.accept i [] []) as [m'|] eqn:E; [|done].
    intros [= <- <-]. exists 0. rewrite Nat.add_0_r. by repeat split.
  - destruct (Rx.rmatch r Rx.accept i (c :: rest) []) as [m'|] eqn:E.
    + intros [= <- <-]. exists 0. rewrite Nat.add_0_r. split; [lia|]. by split.
    + intros (d & Hd & -> & Hm)%IH. exists (S d).
      rewrite Nat.add_succ_r. split; [lia|]. by split.
Qed.

(** Where the matcher succeeds at some position, the search succeeds. *)
Lemma search_complete r i rest d m :
  d <= length rest ->
  Rx.rmatch r Rx.accept (i + d) (drop d rest) [] = Some m ->
  is_Some (Rx.search r i rest).
Proof.
  revert i d. induction rest as [|c rest IH]; intros i d Hd Hm.
  - assert (d = 0) as -> by (simpl in Hd; lia).
    rewrite Nat.add_0_r in Hm. simpl in *. by rewrite Hm.
  - cbn [Rx.search].
    destruct (Rx.rmatch r Rx.accept i (c :: rest) []) as [m'|] eqn:E; [done|].
    destruct d as [|d].
    + rewrite Nat.add_0_r in Hm. simpl in Hm. congruence.
    + apply (IH (S i) d); [simpl in Hd; lia|].
      by rewrite Nat.add_succ_r in Hm.
Qed.

(* ===================================================================== *)
(** ** The file of the document                                           *)
(* ===================================================================== *)

Lemma in_class_word c : Rx.in_class [Rx.AWord] c = Rx.is_word c.
Proof. unfold Rx.in_class. simpl. by rewrite orb_false_r. Qed.

Lemma forallb_word ws :
  forallb (Rx.in_class [Rx.AWord]) ws = true
  <-> Forall (fun c => Rx.is_word c = true) ws.
Proof.
  rewrite forallb_forall, Forall_forall.
  split; intros H c Hc; specialize (H c); rewrite in_class_word in *;
    apply H; by apply list_elem_of_In.
Qed.

(** The matcher of [/\.\w+$/] at one position. *)
Lemma extension_match i rest caps :
  Rx.rmatch (Rx.pattern rx_extension) Rx.accept i rest caps
  = match rest with
    | d :: c :: ws =>
        if decide (d = 46%N) then
          if Rx.in_class [Rx.AWord] c && forallb (Rx.in_class [Rx.AWord]) ws
          then Some (i + length rest, caps) else None
        else None
    | _ => None
    end.
Proof.
  change (Rx.rmatch (Rx.pattern rx_extension) Rx.accept i rest caps)
    with (Rx.one [Rx.ALit 46] (Rx.one [Rx.AWord]
            (Rx.star true [Rx.AWord] (Rx.rmatch Rx.REol Rx.accept))) i rest caps).
  unfold Rx.one. destruct rest as [|d [|c ws]].
  - reflexivity.
  - rewrite in_class_lit. by destruct (bool_decide (d = 46%N)).
  - rewrite in_class_lit. destruct (decide (d = 46%N)) as [->|Hne].
    + rewrite bool_decide_eq_true_2 by done.
      destruct (Rx.in_class [Rx.AWord] c); [|reflexivity].
      rewrite star_to_end. cbn [andb].
      destruct (forallb _ ws); [|reflexivity]. f_equal. f_equal. simpl. lia.
    + by rewrite bool_decide_eq_false_2.
Qed.

Lemma word_not_dot ext :
  Forall (fun c => Rx.is_word c = true) ext -> 46%N ∉ ext.
Proof.
  intros H Hin. eapply Forall_forall in H; [|exact Hin]. by vm_compute in H.
Qed.

(** The last dot splits a text in one way only. *)
Lemma last_dot_unique (a b x y : jsstring) :
  a ++ 46%N :: x = b ++ 46%N :: y -> 46%N ∉ x -> 46%N ∉ y -> a = b.
Proof.
  intros Heq Hx Hy.
  apply app_eq_app in Heq as [l [[-> Heq]|[-> Heq]]].
  - destruct l as [|c l]; [by rewrite app_nil_r|].
    injection Heq as <- ->. exfalso. apply Hy. apply elem_of_app. right. left.
  - destruct l as [|c l]; [by rewrite app_nil_r|].
    injection Heq as <- ->. exfalso. apply Hx. apply elem_of_app. right. left.
Qed.

(** Without the [g] flag [exec] searches from the start and leaves the
    regular expression as it is. *)
Lemma exec_plain rx s :
  Rx.global rx = false ->
  Rx.exec rx s
  = match Rx.search (Rx.pattern rx) 0 s with
    | None => (rx, None)
    | Some (i, (e, caps)) => (rx, Some (Rx.mkExecArray i e s caps))
    end.
Proof.
  intros Hg. unfold Rx.exec. rewrite Hg.
  destruct (decide (length s < 0)); [lia|]. by rewrite drop_0.
Qed.

(** What [path.replace(/\.\w+$/, '')] leaves: the text before the match,
    which then is an extension up to the end, or the whole text. *)
Lemma strip_extension_cases path :
  (exists stem ext,
     extension_split path stem ext /\ Rx.str_replace path rx_extension [] = stem)
  \/ ((forall stem ext, ~ extension_split path stem ext)
      /\ Rx.str_replace path rx_extension [] = path).
Proof.
  unfold Rx.str_replace. rewrite exec_plain by done.
  destruct (Rx.search (Rx.pattern rx_extension) 0 path) as [[j [e caps]]|] eqn:Es.
  - left. apply search_sound in Es as (d & Hd & -> & Hm).
    rewrite Nat.add_0_l in *. rewrite extension_match in Hm.
    destruct (drop d path) as [|c0 [|c ws]] eqn:Ed; try done.
    destruct (decide (c0 = 46%N)) as [->|]; [|done].
    destruct (Rx.in_class [Rx.AWord] c && forallb (Rx.in_class [Rx.AWord]) ws) eqn:Ew;
      [|done].
    injection Hm as <- <-. cbn [snd Rx.index Rx.end_index].
    assert (Hlen : d + length (46%N :: c :: ws) = length path).
    { rewrite <- Ed, length_drop. lia. }
    exists (take d path), (c :: ws). split.
    + split; [by rewrite <- Ed, take_drop|]. split; [done|].
      apply andb_true_iff in Ew as [Hc Hws]. apply forallb_word. cbn [forallb].
      by rewrite Hc, Hws.
    + simpl in Hlen. rewrite Hlen, drop_all. simpl. by rewrite app_nil_r.
  - right. split; [|done]. intros stem ext (-> & Hne & Hw).
    assert (is_Some (Rx.search (Rx.pattern rx_extension) 0 (stem ++ 46%N :: ext)))
      as [? ?]; [|congruence].
    apply (search_complete _ 0 _ (length stem) (length (stem ++ 46%N :: ext), [])).
    + rewrite length_app. lia.
    + rewrite extension_match, drop_app_length.
      destruct ext as [|c ws]; [done|].
      destruct (decide (46%N = 46%N)); [|done].
      apply forallb_word in Hw. cbn [forallb] in Hw. rewrite Hw.
      do 2 f_equal. rewrite length_app. simpl. lia.
Qed.

(** X2: the file of the document.  An extension at the end of the path, a
    dot followed by word characters only up to the end, is cut off before
    [.md] is appended, and only that last one ([a.b.c] gives [a.b.md]); a
    path without such an end gets [.md] appended as it is; either way the
    file name is a prefix of the path followed by [.md]. *)
Theorem main_file_extension (path : jsstring) :
  (forall stem ext, extension_split path stem ext -> main_file path = stem ++ js ".md")
  /\ ((forall stem ext, ~ extension_split path stem ext) ->
      main_file path = path ++ js ".md")
  /\ (exists stem rest, path = stem ++ rest /\ main_file path = stem ++ js ".md").
Proof.
  unfold main_file.
  destruct (strip_extension_cases path) as [(stem & ext & Hs & ->)|[Hno ->]].
  - split; [|split].
    + intros stem' ext' (Hp' & _ & Hw'). destruct Hs as (Hp & _ & Hw).
      rewrite Hp in Hp'. f_equal. eapply last_dot_unique; [exact Hp'|..];
        by apply word_not_dot.
    + intros Hno. by destruct (Hno stem ext).
    + destruct Hs as (-> & _). by eexists _, _.
  - split; [|split].
    + intros stem ext Hs. by destruct (Hno stem ext).
    + done.
    + exists path, []. by rewrite app_nil_r.
Qed.

Example main_file_examples :
  main_file (js "guide") = js "guide.md"
  /\ main_file (js "guide.txt") = js "guide.md"
  /\ main_file (js "a.b.c") = js "a.b.md"
  /\ main_file (js "v1.2/intro") = js "v1.2/intro.md"
  /\ main_file (js "notes.") = js "notes..md"
  /\ main_file [] = js ".md".
Proof. repeat split; vm_compute; reflexivity. Qed.

(* ===================================================================== *)
(** ** What [parse] does with its callback                                *)
(* ===================================================================== *)









Example parse_path_key_spins :
  parse rx_path_key (Str (js "path7")) (Fn count_match) 0 = OutOfFuel.
Proof. vm_compute. reflexivity. Qed.

(* ===================================================================== *)
(** ** The alphabet of keys and values                                    *)
(* ===================================================================== *)

Lemma slice_from_drop s i d : take d (drop i s) = Rx.slice s i (i + d).
Proof. unfold Rx.slice. f_equal. lia. Qed.

Lemma slice_cons s i j c :
  s !! i = Some c -> i < j -> Rx.slice s i j = c :: Rx.slice s (S i) j.
Proof.
  intros Hc Hij. unfold Rx.slice. rewrite (drop_S _ _ _ Hc).
  replace (j - i) with (S (j - S i)) by lia. done.
Qed.

(** The runs of the matcher, on the text from position [i]. *)
Lemma one_run_at cs k s i caps r :
  Rx.one cs k i (drop i s) caps = Some r ->
  exists c,
    s !! i = Some c /\ Rx.in_class cs c = true
    /\ k (S i) (drop (S i) s) caps = Some r.
Proof.
  intros (c & rest' & Hd & Hc & Hk)%one_run. exists c.
  assert (s !! i = Some c) as Hi.
  { rewrite <- (Nat.add_0_r i), <- lookup_drop, Hd. done. }
  split; [done|]. split; [done|].
  rewrite (drop_S _ _ _ Hi) in Hd. by injection Hd as <-.
Qed.

Lemma star_run_at g cs k s i caps r :
  Rx.star g cs k i (drop i s) caps = Some r ->
  exists j,
    i <= j
    /\ forallb (Rx.in_class cs) (Rx.slice s i j) = true
    /\ k j (drop j s) caps = Some r.
Proof.
  intros (d & _ & Hall & Hk)%star_run. exists (i + d).
  split; [lia|]. rewrite <- slice_from_drop. split; [done|].
  by rewrite drop_drop in Hk.
Qed.

Lemma search_sound_at r s i j m :
  Rx.search r i (drop i s) = Some (j, m) ->
  i <= j /\ Rx.rmatch r Rx.accept j (drop j s) [] = Some m.
Proof.
  intros (d & _ & -> & Hm)%search_sound. split; [lia|].
  by rewrite drop_drop in Hm.
Qed.

Lemma value_class c :
  Rx.in_class [Rx.AWord; Rx.ALit 45; Rx.ALit 95; Rx.ALit 46] c = is_value_char c.
Proof.
  unfold Rx.in_class, is_value_char. cbn [existsb Rx.in_atom].
  rewrite orb_false_r.
  destruct (Rx.is_word c) eqn:Ew; [done|]. cbn [orb].
  destruct (N.eqb_spec c 45) as [->|]; [done|]. cbn [orb].
  destruct (N.eqb_spec c 95) as [->|]; [by vm_compute in Ew|]. done.
Qed.

Lemma forallb_value t :
  forallb (Rx.in_class [Rx.AWord; Rx.ALit 45; Rx.ALit 95; Rx.ALit 46]) t = true ->
  Forall (fun c => is_value_char c = true) t.
Proof.
  rewrite forallb_forall, Forall_forall. intros H c Hc.
  rewrite <- value_class. by apply H, list_elem_of_In.
Qed.

(** A match of the pairs pattern captures a word as group 1 and a string
    of value characters as group 2. *)
Lemma pairs_match_shape s i e caps :
  Rx.rmatch (Rx.pattern rx_pairs) Rx.accept i (drop i s) [] = Some (e, caps) ->
  exists a1 b1 a2 b2,
    caps = [(2, (a2, b2)); (1, (a1, b1))]
    /\ Rx.slice s a1 b1 <> []
    /\ Forall (fun c => Rx.is_word c = true) (Rx.slice s a1 b1)
    /\ Forall (fun c => is_value_char c = true) (Rx.slice s a2 b2).
Proof.
  change (Rx.rmatch (Rx.pattern rx_pairs) Rx.accept i (drop i s) [])
    with (Rx.star true [Rx.ASpace]
            (fun a1 rest1 caps1 =>
               Rx.one [Rx.AWord]
                 (Rx.star true [Rx.AWord]
                    (fun b1 rest2 caps2 =>
                       Rx.one [Rx.ALit 58]
                         (Rx.star true [Rx.ASpace]
                            (fun a2 rest3 caps3 =>
                               Rx.star true
                                 [Rx.AWord; Rx.ALit 45; Rx.ALit 95; Rx.ALit 46]
                                 (fun b2 rest4 caps4 =>
                                    Rx.star true [Rx.ASpace] Rx.accept b2 rest4
                                      ((2, (a2, b2)) :: caps4))
                                 a2 rest3 caps3))
                         b1 rest2 ((1, (a1, b1)) :: caps2)))
                 a1 rest1 caps1)
            i (drop i s) []).
  intros (a1 & _ & _ & H)%star_run_at.
  apply one_run_at in H as (c1 & Hc1 & Hw1 & H).
  apply star_run_at in H as (b1 & Hb1 & Hword & H).
  apply one_run_at in H as (colon & _ & _ & H).
  apply star_run_at in H as (a2 & _ & _ & H).
  apply star_run_at in H as (b2 & _ & Hvalue & H).
  apply star_run_at in H as (e' & _ & _ & H).
  injection H as <- <-.
  exists a1, b1, a2, b2. split; [done|].
  rewrite (slice_cons s a1 b1 c1) by (done || lia).
  split; [done|]. split; [|by apply forallb_value].
  constructor; [by rewrite <- in_class_word|]. by apply forallb_word.
Qed.

(** What [store_pair] reads off a match of [pairs] has the shape of an
    option. *)
Lemma pair_of_shape n s rx' m :
  Rx.exec (Rx.set_lastIndex rx_pairs n) s = (rx', Some m) ->
  option_shape (pair_of m).1 (pair_of m).2.
Proof.
  unfold Rx.exec. cbn [Rx.global Rx.set_lastIndex rx_pairs Rx.literal Rx.lastIndex].
  destruct (decide (length s < n)); [done|].
  destruct (Rx.search _ n (drop n s)) as [[j [e caps]]|] eqn:Es; [|done].
  intros [= _ <-]. apply search_sound_at in Es as [_ Hm].
  apply pairs_match_shape in Hm as (a1 & b1 & a2 & b2 & -> & Hne & Hw & Hv).
  unfold pair_of, option_shape, Rx.item. simpl.
  split; [done|]. split; [done|]. by eexists.
Qed.

Lemma matches_pairs_shape source :
  Forall (fun m => option_shape (pair_of m).1 (pair_of m).2)
    (matches rx_pairs source).
Proof.
  unfold matches.
  destruct (parse_inv collect
              (Forall (fun m => option_shape (pair_of m).1 (pair_of m).2))
              rx_pairs source eq_refl) with (st := @nil Rx.ExecArray)
    as (ms & -> & Hms); [|done|done].
  intros n rx' m acc He Hacc. eexists. split; [done|].
  apply Forall_app. split; [done|]. constructor; [|done].
  by eapply pair_of_shape.
Qed.

Lemma all_pairs_shape source :
  Forall (fun kv => option_shape kv.1 kv.2) (all_pairs source).
Proof.
  unfold all_pairs. apply Forall_concat, Forall_fmap, Forall_forall.
  intros comment _. unfold pairs_in. apply Forall_fmap.
  apply (matches_pairs_shape (Rx.item comment 1)).
Qed.

(** A property of the assigned object is one of the pairs, or was there. *)
Lemma assign_all_lookup out pairs k v :
  assign_all out pairs !! k = Some v ->
  (k, v) ∈ pairs \/ out !! k = Some v.
Proof.
  revert out. induction pairs as [|[k' v'] pairs IH]; intros out; [by right|].
  unfold assign_all in *. cbn [foldl fst snd]. intros [Hin|Ho]%IH.
  - left. by right.
  - unfold obj_set in Ho. destruct (decide _); [by right|].
    destruct (decide (k' = k)) as [->|Hne].
    + rewrite lookup_insert_eq in Ho. injection Ho as ->. left. left.
    + rewrite lookup_insert_ne in Ho by done. by right.
Qed.

Ltac split_bools :=
  repeat match goal with
  | H : _ || _ = true |- _ => apply orb_true_iff in H as [H|H]
  | H : _ && _ = true |- _ => apply andb_true_iff in H as [? ?]
  | H : (_ <=? _)%N = true |- _ => apply N.leb_le in H
  | H : (_ =? _)%N = true |- _ => apply N.eqb_eq in H
  end.

Lemma value_char_range c : is_value_char c = true -> (45 <= c <= 122)%N.
Proof.
  unfold is_value_char, Rx.is_word, Rx.is_digit, Rx.between.
  intros H. split_bools; lia.
Qed.

Lemma space_range c : Rx.is_space c = true -> (c <= 32 \/ 160 <= c)%N.
Proof.
  unfold Rx.is_space, Rx.between. intros H. split_bools; lia.
Qed.

Lemma value_char_not_space c : is_value_char c = true -> Rx.is_space c = false.
Proof.
  intros Hc%value_char_range. apply not_true_is_false.
  intros Hs%space_range. lia.
Qed.

Lemma value_char_no_slash_no_space t :
  Forall (fun c => is_value_char c = true) t ->
  (47%N ∉ t) /\ Forall (fun c => Rx.is_space c = false) t.
Proof.
  intros H. split.
  - intros Hin. eapply Forall_forall in H; [|exact Hin]. by vm_compute in H.
  - eapply Forall_impl; [exact H|]. apply value_char_not_space.
Qed.

(** Every property of the options has the shape of an option. *)
Lemma parseComments_shape source out key value :
  parseComments source = Done out ->
  out !! key = Some value -> option_shape key value.
Proof.
  intros Hp Hk. destruct (truthy source) eqn:Ht.
  - rewrite parseComments_as_fold in Hp by done. injection Hp as <-.
    apply assign_all_lookup in Hk as [Hin|Hk]; [|by rewrite lookup_empty in Hk].
    pose proof (all_pairs_shape source) as Hall.
    eapply Forall_forall in Hall; [|exact Hin]. exact Hall.
  - unfold parseComments in Hp. rewrite Ht in Hp. injection Hp as <-.
    by rewrite lookup_empty in Hk.
Qed.

(** X5: every key of the options is a word, a run of word characters that
    is not empty, and every value is a string of word characters, hyphens
    and dots, possibly empty: no value is [undefined], and no value holds a
    slash or white space. *)
Theorem parseComments_option_alphabet (source : jsval) (out : jsobject) :
  parseComments source = Done out ->
  map_Forall
    (fun key value =>
       key <> []
       /\ Forall (fun c => Rx.is_word c = true) key
       /\ exists t,
            value = Str t
            /\ Forall (fun c => is_value_char c = true) t
            /\ (47%N ∉ t)
            /\ Forall (fun c => Rx.is_space c = false) t)
    out.
Proof.
  intros Hp key value Hk.
  destruct (parseComments_shape _ _ _ _ Hp Hk) as (Hne & Hw & t & -> & Hv).
  split; [done|]. split; [done|]. exists t. split; [done|]. split; [done|].
  by apply value_char_no_slash_no_space.
Qed.

Lemma parseComments_option_alphabet_witness :
  map_Forall
    (fun key value =>
       key <> []
       /\ Forall (fun c => Rx.is_word c = true) key
       /\ exists t,
            value = Str t
            /\ Forall (fun c => is_value_char c = true) t
            /\ (47%N ∉ t)
            /\ Forall (fun c => Rx.is_space c = false) t)
    ({[ js "toc" := Str (js "b.md") ]} : jsobject).
Proof.
  apply (parseComments_option_alphabet
           (Str (js "<!-- toc: a.md --><!-- toc: b.md -->"))).
  vm_compute. reflexivity.
Defined.

Example value_stops_at_slash :
  parseComments (Str (js "<!-- toc: ../up/nav.md -->"))
  = Done {[ js "toc" := Str (js "..") ]}.
Proof. vm_compute. reflexivity. Qed.

(* ===================================================================== *)
(** ** The loads of a resolution                                          *)
(* ===================================================================== *)




(* ===================================================================== *)
(** ** Resolutions in a row and the cache                                 *)
(* ===================================================================== *)

Lemma check_cache_lang lang w tr :
  cache_lang (mkService (cache (check_cache lang w)) tr) = Str lang.
Proof.
  unfold cache_lang. cbn [cache]. rewrite check_cache_cache.
  destruct (decide (Str lang = cache_lang w)) as [He|_].
  - by rewrite He.
  - unfold obj_get. by rewrite lookup_singleton_eq.
Qed.

Lemma only_reset_cache_events lang w :
  only is_reset (cache_events lang w)
  = EReset <$> (if decide (Str lang = cache_lang w) then [] else [lang]).
Proof. unfold cache_events. by destruct (decide _). Qed.

(** X7: resolutions in a row, one per navigation on the same service, all
    complete, and the cache is replaced once for each language that differs
    from the one before it, the language of the cache before the first: a
    row of navigations in one language replaces the cache at most once.
    After the row the cache carries the language of the last route. *)
Theorem resolve_all_resets (c : Collaborators)
    (routes : list ActivatedRouteSnapshot) (w : service) :
  exists results w' evs,
    resolve_all c routes w = Done (results, w')
    /\ length results = length routes
    /\ trace w' = trace w ++ evs
    /\ only is_reset evs
       = EReset <$> language_changes (cache_lang w) (selector_resolve c <$> routes)
    /\ (forall lang, last (selector_resolve c <$> routes) = Some lang ->
        cache_lang w' = Str lang).
Proof.
  revert w. induction routes as [|route routes IH]; intros w.
  - exists [], w, []. repeat split; try done. by rewrite app_nil_r.
  - destruct (resolve_runs c route w) as (res & evs1 & Hr & Hrun).
    set (lang := selector_resolve c route) in *.
    set (w1 := mkService (cache (check_cache lang w))
                 (trace w ++ cache_events lang w ++ evs1)) in *.
    destruct (IH w1) as (results & w' & evs2 & Hall & Hlen & Htr & Hres & Hlast).
    exists (res :: results), w', (cache_events lang w ++ evs1 ++ evs2).
    split; [cbn [resolve_all]; rewrite Hrun; cbn [bind snd fst]; by rewrite Hall|].
    split; [simpl; by rewrite Hlen|].
    split; [rewrite Htr; unfold w1; cbn [trace]; by rewrite <- !app_assoc|].
    split.
    + rewrite !only_app, Hres, (resolution_no_reset _ _ _ _ Hr).
      rewrite only_reset_cache_events. cbn [fmap list_fmap language_changes app].
      fold lang. rewrite fmap_app. f_equal. unfold w1. by rewrite check_cache_lang.
    + intros l Hl. rewrite fmap_cons in Hl.
      destruct routes as [|route2 routes].
      * injection Hl as <-.
        cbn [resolve_all] in Hall. injection Hall as _ <-.
        apply check_cache_lang.
      * apply Hlast. by rewrite fmap_cons in *.
Qed.

Example language_changes_example :
  language_changes Undefined [js "en"; js "en"; js "it"; js "it"; js "en"]
  = [js "en"; js "it"; js "en"].
Proof. reflexivity. Qed.

(* ===================================================================== *)
(** ** The properties of the result                                       *)
(* ===================================================================== *)

(** X8: when the document is loaded, the result is [{ body: '' }] only
    if the load of the table of contents failed; otherwise the options
    of the document come after [body] and [path] and before [toc]: an
    option named [body] or [path] replaces the text loaded and the path of
    the route, which are there only when no option has their name, every
    other option but [toc] is in the result as it is, and nothing else is. *)
Theorem options_override_result (c : Collaborators)
    (route : ActivatedRouteSnapshot) (w : service) (body : jsstring)
    (options : jsobject) :
  loadFile c (root_of route) (selector_resolve c route)
    (main_file (path_of route)) = Emits body ->
  parseComments (Str body) = Done options ->
  exists res w',
    resolve c route w = Done (res, w')
    /\ ((res = degraded
         /\ exists e,
              loadFile c (root_of route) (selector_resolve c route)
                (ToString (obj_get options (js "toc"))) = Fails e)
        \/ ((forall key value,
               key <> js "toc" -> options !! key = Some value ->
               res !! key = Some value)
            /\ (options !! js "body" = None -> res !! js "body" = Some (Str body))
            /\ (options !! js "path" = None ->
                res !! js "path" = Some (Str (path_of route)))
            /\ (forall key,
                  key <> js "body" -> key <> js "path" -> key <> js "toc" ->
                  res !! key = options !! key))).
Proof.
  intros H1 Ho.
  destruct (resolve_runs c route w) as (res & evs & Hr & ->).
  eexists _, _. split; [done|].
  assert (Hspread : forall base : jsobject,
    (forall key value, options !! key = Some value ->
       spread base options !! key = Some value)
    /\ (forall key, options !! key = None -> spread base options !! key = base !! key)).
  { intros base. unfold spread. split.
    - intros key value Hk. by apply lookup_union_Some_l.
    - intros key Hk. by apply lookup_union_r. }
  destruct Hr as [e H1'|body' options' H1' Ho' Ht|body' options' e H1' Ho' Ht H2
                 |body' options' toc H1' Ho' Ht H2];
    rewrite H1 in H1'; try discriminate H1'; injection H1' as <-;
    rewrite Ho in Ho'; injection Ho' as <-; [|left; by eauto|].
  - right. destruct (Hspread (<[ js "path" := Str (path_of route) ]>
                                {[ js "body" := Str body ]})) as [Hs Hn].
    split; [intros key value _; apply Hs|].
    split; [intros Hb; rewrite Hn by done;
            by rewrite lookup_insert_ne, lookup_singleton_eq|].
    split; [intros Hp; rewrite Hn by done; by rewrite lookup_insert_eq|].
    intros key Hb Hp _. destruct (options !! key) as [v|] eqn:E; [by apply Hs|].
    rewrite Hn by done. by rewrite lookup_insert_ne, lookup_singleton_ne.
  - right. destruct (Hspread (<[ js "path" := Str (path_of route) ]>
                                {[ js "body" := Str body ]})) as [Hs Hn].
    split; [intros key value Hk Hv; rewrite lookup_insert_ne by done; by apply Hs|].
    split; [intros Hb; rewrite lookup_insert_ne by done; rewrite Hn by done;
            by rewrite lookup_insert_ne, lookup_singleton_eq|].
    split; [intros Hp; rewrite lookup_insert_ne by done; rewrite Hn by done;
            by rewrite lookup_insert_eq|].
    intros key Hb Hp Hk. rewrite lookup_insert_ne by done.
    destruct (options !! key) as [v|] eqn:E; [by apply Hs|].
    rewrite Hn by done. by rewrite lookup_insert_ne, lookup_singleton_ne.
Qed.

Lemma options_override_result_witness :
  exists res w',
    resolve (english body_option_loader) guide_route fresh_service = Done (res, w')
    /\ ((res = degraded
         /\ exists e,
              loadFile (english body_option_loader) (root_of guide_route)
                (selector_resolve (english body_option_loader) guide_route)
                (ToString (obj_get ({[ js "body" := Str (js "none") ]} : jsobject)
                             (js "toc"))) = Fails e)
        \/ ((forall key value,
               key <> js "toc" ->
               ({[ js "body" := Str (js "none") ]} : jsobject) !! key = Some value ->
               res !! key = Some value)
            /\ (({[ js "body" := Str (js "none") ]} : jsobject) !! js "body" = None ->
                res !! js "body" = Some (Str (js "text <!-- body: none -->")))
            /\ (({[ js "body" := Str (js "none") ]} : jsobject) !! js "path" = None ->
                res !! js "path" = Some (Str (path_of guide_route)))
            /\ (forall key,
                  key <> js "body" -> key <> js "path" -> key <> js "toc" ->
                  res !! key = ({[ js "body" := Str (js "none") ]} : jsobject) !! key))).
Proof.
  apply (options_override_result (english body_option_loader) guide_route
           fresh_service (js "text <!-- body: none -->")
           {[ js "body" := Str (js "none") ]}).
  - vm_compute. reflexivity.
  - vm_compute. reflexivity.
Defined.

(* ===================================================================== *)
(** ** Comments that are not closed                                       *)
(* ===================================================================== *)

(** Where the comments pattern matches, the text holds an opening and,
    after it, a closing delimiter. *)
Lemma comment_match_delimiters s j m :
  Rx.rmatch (Rx.pattern rx_comments) Rx.accept j (drop j s) [] = Some m ->
  exists inner after,
    s = take j s ++ js "<!--" ++ inner ++ js "-->" ++ after.
Proof.
  change (Rx.rmatch (Rx.pattern rx_comments) Rx.accept j (drop j s) [])
    with (Rx.rmatch (Rx.lit_units (js "<!--"))
            (fun i rest caps =>
               Rx.star false [Rx.ASpace; Rx.ANotSpace]
                 (fun i' rest' caps' =>
                    Rx.rmatch (Rx.lit_units (js "-->")) Rx.accept i' rest'
                      ((1, (i, i')) :: caps'))
                 i rest caps)
            j (drop j s) []).
  rewrite rmatch_lit.
  destruct (strip_prefix (js "<!--") (drop j s)) as [rest|] eqn:E1; [|done].
  apply strip_prefix_spec in E1.
  intros (d & _ & _ & H)%star_run. rewrite rmatch_lit in H.
  destruct (strip_prefix (js "-->") (drop d rest)) as [after|] eqn:E2; [|done].
  apply strip_prefix_spec in E2.
  exists (take d rest), after.
  rewrite <- E2, take_drop, <- E1. by rewrite take_drop.
Qed.

(** X9: a text that does not hold an opening delimiter followed, later,
    by a closing one gives no options, whatever stands in it: a comment
    that is never closed, or closed before it opens, is not read. *)
Theorem parseComments_needs_closed_comment (s : jsstring) :
  ((forall before inner after,
      s <> before ++ js "<!--" ++ inner ++ js "-->" ++ after) ->
   parseComments (Str s) = Done ∅)
  /\ (includes (js "<!--") s = false -> parseComments (Str s) = Done ∅)
  /\ (includes (js "-->") s = false -> parseComments (Str s) = Done ∅).
Proof.
  assert (Hmain : (forall before inner after,
             s <> before ++ js "<!--" ++ inner ++ js "-->" ++ after) ->
           parseComments (Str s) = Done ∅).
  { intros Hno. apply parseComments_no_comment.
    unfold Rx.exec. cbn [Rx.global rx_comments Rx.literal Rx.lastIndex].
    destruct (decide (length s < 0)); [lia|].
    destruct (Rx.search _ 0 (drop 0 s)) as [[j [e caps]]|] eqn:Es; [|done].
    apply search_sound_at in Es as [_ Hm].
    apply comment_match_delimiters in Hm as (inner & after & Hs).
    by destruct (Hno (take j s) inner after). }
  split; [exact Hmain|]. split.
  - intros Hi. apply Hmain. intros before inner after ->.
    by rewrite includes_intro in Hi.
  - intros Hi. apply Hmain. intros before inner after ->.
    rewrite (app_assoc before), (app_assoc _ inner) in Hi.
    by rewrite includes_intro in Hi.
Qed.

Example unclosed_comment_examples :
  parseComments (Str (js "<!-- toc: a.md ref: 1 -- >")) = Done ∅
  /\ parseComments (Str (js "toc: a.md --> <!-- ref: 1")) = Done ∅
  /\ parseComments (Str (js "<!-- toc: a.md <!-- ref: 1 -->"))
     = Done (<[ js "ref" := Str (js "1") ]> {[ js "toc" := Str (js "a.md") ]}).
Proof. repeat split; vm_compute; reflexivity. Qed.

(* ===================================================================== *)
(** ** Where a comment ends                                               *)
(* ===================================================================== *)

(** The lazy quantifier stops at the first position where what follows
    matches. *)
Lemma star_lazy_first cs k i rest caps r :
  Rx.star false cs k i rest caps = Some r ->
  exists d,
    d <= length rest
    /\ k (i + d) (drop d rest) caps = Some r
    /\ forall d', d' < d -> k (i + d') (drop d' rest) caps = None.
Proof.
  revert i. induction rest as [|c rest IH]; intros i; simpl.
  - intros H. exists 0. rewrite Nat.add_0_r. split; [done|]. split; [done|]. lia.
  - assert (Hzero : k i (c :: rest) caps = Some r ->
              exists d, d <= S (length rest)
                /\ k (i + d) (drop d (c :: rest)) caps = Some r
                /\ forall d', d' < d -> k (i + d') (drop d' (c :: rest)) caps = None).
    { intros H. exists 0. rewrite Nat.add_0_r. split; [lia|]. split; [done|]. lia. }
    destruct (Rx.in_class cs c); [|exact Hzero].
    destruct (k i (c :: rest) caps) as [m|] eqn:E.
    + intros [= <-]. by apply Hzero.
    + intros (d & Hd & Hk & Hmin)%IH. exists (S d). split; [lia|].
      split; [by rewrite Nat.add_succ_r|].
      intros [|d'] Hlt; [by rewrite Nat.add_0_r|].
      rewrite Nat.add_succ_r. apply Hmin. lia.
Qed.

(** The shape of a match of the comments pattern at position [j]. *)
Lemma comment_match_shape s j e caps :
  Rx.rmatch (Rx.pattern rx_comments) Rx.accept j (drop j s) [] = Some (e, caps) ->
  exists inner after,
    drop j s = js "<!--" ++ inner ++ js "-->" ++ after
    /\ caps = [(1, (4 + j, 4 + j + length inner))]
    /\ e = 3 + (4 + j + length inner)
    /\ includes (js "-->") inner = false.
Proof.
  change (Rx.rmatch (Rx.pattern rx_comments) Rx.accept j (drop j s) [])
    with (Rx.rmatch (Rx.lit_units (js "<!--"))
            (fun i rest caps =>
               Rx.star false [Rx.ASpace; Rx.ANotSpace]
                 (fun i' rest' caps' =>
                    Rx.rmatch (Rx.lit_units (js "-->")) Rx.accept i' rest'
                      ((1, (i, i')) :: caps'))
                 i rest caps)
            j (drop j s) []).
  rewrite rmatch_lit.
  destruct (strip_prefix (js "<!--") (drop j s)) as [rest|] eqn:E1; [|done].
  apply strip_prefix_spec in E1.
  intros (d & Hd & H & Hmin)%star_lazy_first. rewrite rmatch_lit in H.
  destruct (strip_prefix (js "-->") (drop d rest)) as [after|] eqn:E2; [|done].
  apply strip_prefix_spec in E2. injection H as <- <-.
  assert (Hlen : length (take d rest) = d) by (rewrite length_take; lia).
  exists (take d rest), after. rewrite Hlen.
  split; [by rewrite <- E2, take_drop|]. split; [done|]. split; [done|].
  destruct (includes (js "-->") (take d rest)) eqn:Ei; [exfalso|done].
  apply includes_elim in Ei as (a & b & Hab).
  assert (Hd' : length a < d).
  { assert (length (take d rest) = length (a ++ js "-->" ++ b)) as Hl
      by by rewrite Hab.
    rewrite !length_app in Hl. simpl in Hl. lia. }
  specialize (Hmin (length a) Hd'). rewrite rmatch_lit in Hmin.
  assert (strip_prefix (js "-->") (drop (length a) rest)
          = Some (b ++ drop d rest)) as Hs.
  { apply strip_prefix_spec.
    rewrite <- (take_drop d rest) at 1. rewrite Hab, <- !app_assoc.
    by rewrite drop_app_length. }
  by rewrite Hs in Hmin.
Qed.

Lemma comment_exec_shape n s rx' m :
  Rx.exec (Rx.set_lastIndex rx_comments n) s = (rx', Some m) ->
  exists inner, comment_around inner m.
Proof.
  unfold Rx.exec. cbn [Rx.global Rx.set_lastIndex rx_comments Rx.literal Rx.lastIndex].
  destruct (decide (length s < n)); [done|].
  destruct (Rx.search _ n (drop n s)) as [[j [e caps]]|] eqn:Es; [|done].
  intros [= _ <-]. apply search_sound_at in Es as [_ Hm].
  apply comment_match_shape in Hm as (inner & after & Hs & -> & -> & Hi).
  exists inner. unfold comment_around, Rx.item, Rx.slice.
  cbn [Rx.index Rx.end_index Rx.input Rx.groups Rx.assoc].
  destruct (decide (1 = 1)); [|done].
  split; [|split; [|done]].
  - f_equal. rewrite Hs.
    replace (js "<!--" ++ inner ++ js "-->" ++ after)
      with ((js "<!--" ++ inner ++ js "-->") ++ after) by by rewrite <- !app_assoc.
    apply take_app_length'. rewrite !length_app.
    change (length (js "<!--")) with 4. change (length (js "-->")) with 3. lia.
  - f_equal. rewrite (Nat.add_comm 4 j), <- drop_drop, Hs.
    change (drop 4 (js "<!--" ++ inner ++ js "-->" ++ after))
      with (inner ++ js "-->" ++ after).
    apply take_app_length'. lia.
Qed.

(** X10: every comment [parseComments] scans ends at the first closing
    delimiter after its opening one: the match is the opening delimiter,
    an inner text without a closing delimiter, and the closing delimiter,
    and the pairs are read from that inner text; two comments are never
    read as one. *)
Theorem comments_end_at_first_delimiter (source : jsval) :
  Forall (fun m => exists inner, comment_around inner m)
    (matches rx_comments source).
Proof.
  unfold matches.
  destruct (parse_inv collect
              (Forall (fun m => exists inner, comment_around inner m))
              rx_comments source eq_refl) with (st := @nil Rx.ExecArray)
    as (ms & -> & Hms); [|done|done].
  intros n rx' m acc He Hacc. eexists. split; [done|].
  apply Forall_app. split; [done|]. constructor; [|done].
  by eapply comment_exec_shape.
Qed.

Example two_comments_on_a_line :
  (fun m => Rx.item m 1)
    <$> matches rx_comments (Str (js "<!-- a: 1 --> b: 2 <!-- c: 3 -->"))
  = [Str (js " a: 1 "); Str (js " c: 3 ")].
Proof. vm_compute. reflexivity. Qed.
